(** * A browser-automation script for Camunda: model and properties

    Shallow embedding of [src/automation.ts]: a linear Playwright script
    that logs in, creates a process with a REST connector, starts an
    instance of it and reads its completion status.

    The script only talks to the outside (the browser, the console), so
    the model is a small monad that threads a trace of observable events,
    consults an arbitrary "world" for the outcome of each browser call,
    and carries JavaScript's three ways an awaited call can go: it
    fulfils, it rejects, or it never settles. *)

From Stdlib Require Import String Ascii List ZArith Bool Arith Lia.
Import ListNotations.

Local Open Scope string_scope.
Local Open Scope list_scope.

(** JavaScript's [+] on strings (and template-literal splicing). *)
Infix "+++" := String.append (right associativity, at level 60).
Arguments String.append : simpl never.

(** The double-quote character that occurs inside selectors and log lines. *)
Definition dquote : string := String (ascii_of_nat 34) EmptyString.

(* ================================================================== *)
(** ** Configuration (lines 6-11) *)

(** [process.env]: a variable is either unset ([undefined]) or a string. *)
Definition Env := string -> option string.

(** A string is falsy exactly when it is empty. *)
Definition truthy (s : string) : bool :=
  match s with
  | EmptyString => false
  | String _ _ => true
  end.

(** [process.env.X || fallback]: the left operand when it is truthy,
    otherwise the right one. [undefined] is falsy. *)
Definition or_default (v : option string) (fallback : string) : string :=
  match v with
  | Some s => if truthy s then s else fallback
  | None => fallback
  end.

(** The five module-level constants. *)
Record Config := mkConfig {
  CAMUNDA_URL : string;
  USERNAME : string;
  PASSWORD : string;
  PROCESS_NAME : string;
  REST_URL : string
}.

Definition load_config (env : Env) : Config :=
  {| CAMUNDA_URL := or_default (env "CAMUNDA_URL") EmptyString;
     USERNAME := or_default (env "USERNAME") EmptyString;
     PASSWORD := or_default (env "PASSWORD") EmptyString;
     PROCESS_NAME := or_default (env "PROCESS_NAME") "Test Process";
     REST_URL := or_default (env "REST_URL") "https://api.example.com/data" |}.

(* ================================================================== *)
(** ** Observable events *)

(** [new Error(message)]. *)
Record Error := mkError { message : string }.

(** Handles. The script owns one browser, one context and one page. *)
Inductive Browser : Set := the_browser.
Inductive BrowserContext : Set := the_context.
Inductive Page : Set := the_page.
(** An element handle remembers the selector it was obtained for. *)
Inductive ElementHandle := element (selector : string).

(** The Playwright calls the script makes; [timeout] is the [timeout]
    option of the call, [None] when the script passes none. *)
Inductive Call :=
| Launch (headless : bool)
| NewContext
| NewPage
| Close
| Goto (url : string)
| Fill (selector value : string)
| Press (selector key : string)
| Click (selector : string)
| WaitForNavigation (timeout : option Z)
| WaitForSelector (selector : string) (timeout : option Z)
| TextContent (selector : string)
| HandleFill (h : ElementHandle) (value : string)
| HandleClick (h : ElementHandle)
| HandleSelectOption (h : ElementHandle) (value : string).

(** How an awaited call settles. A fulfilled call may carry text
    ([textContent] yields a string or [null]). *)
Inductive Reply :=
| Fulfilled (text : option string)
| Rejected (err : Error)
| Pending.

(** The five stage functions. *)
Inductive Fn :=
| fn_login | fn_navigateToModeler | fn_createProcess
| fn_runProcessInstance | fn_verifyCompletion.

(** What a run leaves in its trace: the entry into a stage function
    ([Enter], a mark put at the head of each stage so that the trace shows
    which stages were executed; it has no effect of its own), a Playwright
    call with the way it settled, and the arguments of [console.log] and
    [console.error]. *)
Inductive Event :=
| Enter (f : Fn)
| Called (c : Call) (r : Reply)
| ConsoleLog (args : list string)
| ConsoleError (args : list string).

(** The world decides how a call settles, knowing everything that
    happened before. *)
Definition World := list Event -> Call -> Reply.

(* ================================================================== *)
(** ** The monad *)

(** The script's state: the trace so far and the local variable
    [browser] of [run] (line 14), [None] for [undefined]. *)
Record State := mkState {
  trace : list Event;
  var_browser : option Browser
}.

Definition initial : State := {| trace := []; var_browser := None |}.

Definition record (e : Event) (s : State) : State :=
  {| trace := trace s ++ [e]; var_browser := var_browser s |}.

(** How a piece of code completes: normally, by throwing, or not at all
    (it awaits a promise that never settles). *)
Inductive Completion (A : Type) :=
| Normal (a : A)
| Throw (e : Error)
| Suspended.
Arguments Normal {A} a.
Arguments Throw {A} e.
Arguments Suspended {A}.

Definition M (A : Type) := World -> State -> Completion A * State.

Definition ret {A} (a : A) : M A := fun _ s => (Normal a, s).

Definition throw {A} (e : Error) : M A := fun _ s => (Throw e, s).

Definition bind {A B} (m : M A) (k : A -> M B) : M B :=
  fun w s =>
    match m w s with
    | (Normal a, s') => k a w s'
    | (Throw e, s') => (Throw e, s')
    | (Suspended, s') => (Suspended, s')
    end.

Declare Scope script_scope.
Delimit Scope script_scope with script.
Notation "x <- m ;; k" := (bind m (fun x => k))
  (at level 61, m at next level, right associativity) : script_scope.
Notation "m ;; k" := (bind m (fun _ => k))
  (at level 61, right associativity) : script_scope.
Local Open Scope script_scope.

Definition emit (e : Event) : M unit := fun _ s => (Normal tt, record e s).

(** [await] of one Playwright call. *)
Definition call (c : Call) : M (option string) :=
  fun w s =>
    let r := w (trace s) c in
    let s' := record (Called c r) s in
    match r with
    | Fulfilled v => (Normal v, s')
    | Rejected e => (Throw e, s')
    | Pending => (Suspended, s')
    end.

(** [try { body } catch (error) { handler }]. *)
Definition try_catch {A} (body : M A) (handler : Error -> M A) : M A :=
  fun w s =>
    match body w s with
    | (Throw e, s') => handler e w s'
    | other => other
    end.

(** [try { body } finally { finalizer }]: the finalizer runs after the
    body however it completed; when the finalizer itself throws, that
    replaces the body's completion. *)
Definition try_finally {A} (body : M A) (finalizer : M unit) : M A :=
  fun w s =>
    match body w s with
    | (Suspended, s') => (Suspended, s')
    | (c, s') =>
        match finalizer w s' with
        | (Normal _, s'') => (c, s'')
        | (Throw e, s'') => (Throw e, s'')
        | (Suspended, s'') => (Suspended, s'')
        end
    end.

Definition get_browser : M (option Browser) :=
  fun _ s => (Normal (var_browser s), s).

Definition set_browser (b : Browser) : M unit :=
  fun _ s => (Normal tt, {| trace := trace s; var_browser := Some b |}).

Definition console_log (line : string) : M unit := emit (ConsoleLog [line]).
Definition console_error (args : list string) : M unit := emit (ConsoleError args).

(** The Playwright surface the script uses. *)
Definition chromium_launch (headless : bool) : M Browser :=
  call (Launch headless) ;; ret the_browser.
Definition browser_newContext (b : Browser) : M BrowserContext :=
  call NewContext ;; ret the_context.
Definition context_newPage (c : BrowserContext) : M Page :=
  call NewPage ;; ret the_page.
Definition browser_close (b : Browser) : M unit :=
  call Close ;; ret tt.
Definition page_goto (p : Page) (url : string) : M unit :=
  call (Goto url) ;; ret tt.
Definition page_fill (p : Page) (selector value : string) : M unit :=
  call (Fill selector value) ;; ret tt.
Definition page_press (p : Page) (selector key : string) : M unit :=
  call (Press selector key) ;; ret tt.
Definition page_click (p : Page) (selector : string) : M unit :=
  call (Click selector) ;; ret tt.
Definition page_waitForNavigation (p : Page) (timeout : option Z) : M unit :=
  call (WaitForNavigation timeout) ;; ret tt.
Definition page_waitForSelector (p : Page) (selector : string)
    (timeout : option Z) : M ElementHandle :=
  call (WaitForSelector selector timeout) ;; ret (element selector).
Definition page_textContent (p : Page) (selector : string) : M (option string) :=
  call (TextContent selector).
Definition handle_fill (h : ElementHandle) (value : string) : M unit :=
  call (HandleFill h value) ;; ret tt.
Definition handle_click (h : ElementHandle) : M unit :=
  call (HandleClick h) ;; ret tt.
Definition handle_selectOption (h : ElementHandle) (value : string) : M unit :=
  call (HandleSelectOption h value) ;; ret tt.

(** [let browser: Browser | undefined;] *)
Definition declare_browser : M unit :=
  fun _ s => (Normal tt, {| trace := trace s; var_browser := None |}).

(** [completionStatus === 'Completed']: strict equality of a value that
    is a string or [null] with a string. *)
Definition strict_eq (v : option string) (s : string) : bool :=
  match v with
  | Some t => String.eqb t s
  | None => false
  end.

(* ================================================================== *)
(** ** The script (lines 13-160) *)

Section Script.

Variable cfg : Config.

Definition login (page : Page) (username password : string) : M unit :=
  emit (Enter fn_login) ;;
  try_catch
    (page_goto page (CAMUNDA_URL cfg +++ "/login") ;;
     page_fill page ("input[name=" +++ dquote +++ "username" +++ dquote +++ "]") username ;;
     page_press page ("input[name=" +++ dquote +++ "username" +++ dquote +++ "]") "Enter" ;;
     page_fill page ("input[name=" +++ dquote +++ "password" +++ dquote +++ "]") password ;;
     page_press page ("input[name=" +++ dquote +++ "password" +++ dquote +++ "]") "Enter" ;;
     page_waitForNavigation page None ;;
     console_log "Logged in successfully")
    (fun error => throw (mkError ("Login failed: " +++ message error))).

Definition navigateToModeler (page : Page) : M unit :=
  emit (Enter fn_navigateToModeler) ;;
  try_catch
    (page_goto page (CAMUNDA_URL cfg) ;;
     page_waitForSelector page "button >> text=Create process" None ;;
     console_log "Navigated to Web Modeler")
    (fun error =>
       throw (mkError ("Navigation to Web Modeler failed: " +++ message error))).

Definition createProcess (page : Page) (processName restUrl : string) : M unit :=
  emit (Enter fn_createProcess) ;;
  try_catch
    (page_click page "button >> text=Create process" ;;
     page_fill page "input#process-name" processName ;;
     page_click page "button >> text=Create" ;;
     page_click page "button >> text=Add Connector" ;;
     restUrlInput <- page_waitForSelector page "input#rest-url" (Some 5000%Z) ;;
     handle_fill restUrlInput restUrl ;;
     page_click page "button >> text=Save Connector" ;;
     page_click page "button >> text=Save" ;;
     console_log ("Process " +++ dquote +++ processName +++ dquote
                  +++ " created successfully"))
    (fun error => throw (mkError ("Process creation failed: " +++ message error))).

Definition runProcessInstance (page : Page) (processName : string) : M unit :=
  emit (Enter fn_runProcessInstance) ;;
  try_catch
    (page_goto page (CAMUNDA_URL cfg +++ "/run") ;;
     page_click page "button >> text=Run instance" ;;
     page_click page "button#operate-sidebar-toggle" ;;
     operateLink <- page_waitForSelector page "a#operate-link" None ;;
     handle_click operateLink ;;
     processNameDropdown <- page_waitForSelector page "select#process-name" None ;;
     handle_selectOption processNameDropdown processName ;;
     page_click page "button >> text=Start instance" ;;
     console_log ("Process instance of " +++ dquote +++ processName +++ dquote
                  +++ " started successfully"))
    (fun error =>
       throw (mkError ("Running process instance failed: " +++ message error))).

Definition verifyCompletion (page : Page) (processName : string) : M unit :=
  emit (Enter fn_verifyCompletion) ;;
  try_catch
    (page_click page "button#operate-sidebar-toggle" ;;
     operateLink <- page_waitForSelector page "a#operate-link" None ;;
     handle_click operateLink ;;
     page_fill page "input#process-search" processName ;;
     page_click page "button >> text=Search" ;;
     let processRowSelector :=
       "tr[id=" +++ dquote +++ "process-row-" +++ processName +++ dquote +++ "]" in
     let completionStatusCellSelector :=
       processRowSelector +++ " td[id=" +++ dquote +++ "completion-status"
       +++ dquote +++ "]" in
     page_waitForSelector page completionStatusCellSelector None ;;
     completionStatus <- page_textContent page completionStatusCellSelector ;;
     if strict_eq completionStatus "Completed"
     then console_log ("Process instance of " +++ dquote +++ processName +++ dquote
                       +++ " completed successfully")
     else console_log ("Process instance of " +++ dquote +++ processName +++ dquote
                       +++ " did not complete"))
    (fun error =>
       throw (mkError ("Verification of process completion failed: "
                       +++ message error))).

Definition run : M unit :=
  declare_browser ;;
  try_finally
    (try_catch
       (browser <- chromium_launch false ;;
        set_browser browser ;;
        context <- browser_newContext browser ;;
        page <- context_newPage context ;;
        login page (USERNAME cfg) (PASSWORD cfg) ;;
        navigateToModeler page ;;
        createProcess page (PROCESS_NAME cfg) (REST_URL cfg) ;;
        runProcessInstance page (PROCESS_NAME cfg) ;;
        verifyCompletion page (PROCESS_NAME cfg))
       (fun error => console_error ["An error occurred:"; message error]))
    (b <- get_browser ;;
     match b with
     | Some browser => browser_close browser
     | None => ret tt
     end).

End Script.

(** The program: the constants are resolved when the module loads, then
    [run()] is started on a fresh state (line 160). *)
Definition main (env : Env) (w : World) : Completion unit * State :=
  run (load_config env) w initial.

(* ================================================================== *)
(** ** Stages as scripts

    Every stage has the same shape: it issues a fixed list of calls one
    after the other, logs one line when all of them fulfilled, and wraps
    the first rejection. [scripted] is that shape; the lemmas
    [login_scripted] ... [verifyCompletion_scripted] below show that each
    stage function is an instance of it. *)

Fixpoint perform (cs : list Call) (last : option string) : M (option string) :=
  match cs with
  | [] => ret last
  | c :: cs' => v <- call c ;; perform cs' v
  end.

Definition scripted (f : Fn) (cs : list Call) (line : option string -> string)
    (prefix : string) : M unit :=
  emit (Enter f) ;;
  try_catch
    (v <- perform cs None ;; console_log (line v))
    (fun error => throw (mkError (prefix +++ message error))).

Section Scripts.

Variable cfg : Config.

Definition login_calls (username password : string) : list Call :=
  [ Goto (CAMUNDA_URL cfg +++ "/login");
    Fill ("input[name=" +++ dquote +++ "username" +++ dquote +++ "]") username;
    Press ("input[name=" +++ dquote +++ "username" +++ dquote +++ "]") "Enter";
    Fill ("input[name=" +++ dquote +++ "password" +++ dquote +++ "]") password;
    Press ("input[name=" +++ dquote +++ "password" +++ dquote +++ "]") "Enter";
    WaitForNavigation None ].

Definition navigateToModeler_calls : list Call :=
  [ Goto (CAMUNDA_URL cfg);
    WaitForSelector "button >> text=Create process" None ].

Definition createProcess_calls (processName restUrl : string) : list Call :=
  [ Click "button >> text=Create process";
    Fill "input#process-name" processName;
    Click "button >> text=Create";
    Click "button >> text=Add Connector";
    WaitForSelector "input#rest-url" (Some 5000%Z);
    HandleFill (element "input#rest-url") restUrl;
    Click "button >> text=Save Connector";
    Click "button >> text=Save" ].

Definition runProcessInstance_calls (processName : string) : list Call :=
  [ Goto (CAMUNDA_URL cfg +++ "/run");
    Click "button >> text=Run instance";
    Click "button#operate-sidebar-toggle";
    WaitForSelector "a#operate-link" None;
    HandleClick (element "a#operate-link");
    WaitForSelector "select#process-name" None;
    HandleSelectOption (element "select#process-name") processName;
    Click "button >> text=Start instance" ].

Definition status_cell (processName : string) : string :=
  ("tr[id=" +++ dquote +++ "process-row-" +++ processName +++ dquote +++ "]")
  +++ " td[id=" +++ dquote +++ "completion-status" +++ dquote +++ "]".

Definition verifyCompletion_calls (processName : string) : list Call :=
  [ Click "button#operate-sidebar-toggle";
    WaitForSelector "a#operate-link" None;
    HandleClick (element "a#operate-link");
    Fill "input#process-search" processName;
    Click "button >> text=Search";
    WaitForSelector (status_cell processName) None;
    TextContent (status_cell processName) ].

Definition completed_line (processName : string) : string :=
  "Process instance of " +++ dquote +++ processName +++ dquote
  +++ " completed successfully".

Definition not_completed_line (processName : string) : string :=
  "Process instance of " +++ dquote +++ processName +++ dquote
  +++ " did not complete".

Definition verifyCompletion_line (processName : string)
    (completionStatus : option string) : string :=
  if strict_eq completionStatus "Completed"
  then completed_line processName
  else not_completed_line processName.

End Scripts.

(** The fixed label each stage puts before the message it wraps. *)
Definition prefix (f : Fn) : string :=
  match f with
  | fn_login => "Login failed: "
  | fn_navigateToModeler => "Navigation to Web Modeler failed: "
  | fn_createProcess => "Process creation failed: "
  | fn_runProcessInstance => "Running process instance failed: "
  | fn_verifyCompletion => "Verification of process completion failed: "
  end.

(* ================================================================== *)
(** ** What a trace shows *)

(** The stages entered, in order. *)
Fixpoint invocations (evs : list Event) : list Fn :=
  match evs with
  | [] => []
  | Enter f :: rest => f :: invocations rest
  | _ :: rest => invocations rest
  end.

(** The Playwright calls issued, in order. *)
Fixpoint calls (evs : list Event) : list Call :=
  match evs with
  | [] => []
  | Called c _ :: rest => c :: calls rest
  | _ :: rest => calls rest
  end.

(** The argument lists of [console.error] and of [console.log]. *)
Fixpoint errors_logged (evs : list Event) : list (list string) :=
  match evs with
  | [] => []
  | ConsoleError args :: rest => args :: errors_logged rest
  | _ :: rest => errors_logged rest
  end.

Fixpoint lines_logged (evs : list Event) : list (list string) :=
  match evs with
  | [] => []
  | ConsoleLog args :: rest => args :: lines_logged rest
  | _ :: rest => lines_logged rest
  end.

(** An event other than a call that rejected or never settled. *)
Definition fine (ev : Event) : bool :=
  match ev with
  | Called _ (Rejected _) | Called _ Pending => false
  | _ => true
  end.

Definition smooth (evs : list Event) : Prop := forallb fine evs = true.

Definition is_close (c : Call) : bool :=
  match c with Close => true | _ => false end.

(** How often the browser was closed. *)
Definition closes (evs : list Event) : nat :=
  length (filter is_close (calls evs)).

(** The explicit timeout of a call that waits, [None] when the call
    passes none (or does not wait). *)
Definition explicit_timeout (c : Call) : option Z :=
  match c with
  | WaitForNavigation t => t
  | WaitForSelector _ t => t
  | _ => None
  end.

(* ================================================================== *)
(** ** Big-step description of scripts, stages and the pipeline *)

(** [performs w h cs last evs r]: issuing the calls [cs] in world [w]
    after history [h] adds the events [evs] and completes as [r]. *)
Inductive performs (w : World) :
  list Event -> list Call -> option string ->
  list Event -> Completion (option string) -> Prop :=
| performs_done h last :
    performs w h [] last [] (Normal last)
| performs_fulfilled h c cs last v evs r :
    w h c = Fulfilled v ->
    performs w (h ++ [Called c (Fulfilled v)]) cs v evs r ->
    performs w h (c :: cs) last (Called c (Fulfilled v) :: evs) r
| performs_rejected h c cs last e :
    w h c = Rejected e ->
    performs w h (c :: cs) last [Called c (Rejected e)] (Throw e)
| performs_pending h c cs last :
    w h c = Pending ->
    performs w h (c :: cs) last [Called c Pending] Suspended.

(** A stage: entry, the script, then one log line or the wrapped error. *)
Inductive staged (w : World) (h : list Event) (f : Fn) (cs : list Call)
    (line : option string -> string) :
  list Event -> Completion unit -> Prop :=
| staged_normal evs v :
    performs w (h ++ [Enter f]) cs None evs (Normal v) ->
    staged w h f cs line (Enter f :: evs ++ [ConsoleLog [line v]]) (Normal tt)
| staged_throw evs e :
    performs w (h ++ [Enter f]) cs None evs (Throw e) ->
    staged w h f cs line (Enter f :: evs)
      (Throw (mkError (prefix f +++ message e)))
| staged_suspended evs :
    performs w (h ++ [Enter f]) cs None evs Suspended ->
    staged w h f cs line (Enter f :: evs) Suspended.

(* ================================================================== *)
(** ** The five stages, uniformly *)

(** A call of a stage function with its arguments. *)
Inductive StageCall :=
| call_login (page : Page) (username password : string)
| call_navigateToModeler (page : Page)
| call_createProcess (page : Page) (processName restUrl : string)
| call_runProcessInstance (page : Page) (processName : string)
| call_verifyCompletion (page : Page) (processName : string).

Definition fn_of (sc : StageCall) : Fn :=
  match sc with
  | call_login _ _ _ => fn_login
  | call_navigateToModeler _ => fn_navigateToModeler
  | call_createProcess _ _ _ => fn_createProcess
  | call_runProcessInstance _ _ => fn_runProcessInstance
  | call_verifyCompletion _ _ => fn_verifyCompletion
  end.

Section Stages.

Variable cfg : Config.

Definition invoke (sc : StageCall) : M unit :=
  match sc with
  | call_login page username password => login cfg page username password
  | call_navigateToModeler page => navigateToModeler cfg page
  | call_createProcess page processName restUrl =>
      createProcess page processName restUrl
  | call_runProcessInstance page processName =>
      runProcessInstance cfg page processName
  | call_verifyCompletion page processName => verifyCompletion page processName
  end.

(** The calls a stage issues when none of them fails. *)
Definition script (sc : StageCall) : list Call :=
  match sc with
  | call_login _ username password => login_calls cfg username password
  | call_navigateToModeler _ => navigateToModeler_calls cfg
  | call_createProcess _ processName restUrl =>
      createProcess_calls processName restUrl
  | call_runProcessInstance _ processName =>
      runProcessInstance_calls cfg processName
  | call_verifyCompletion _ processName => verifyCompletion_calls processName
  end.

(** The line a stage logs at its end, given what its last call yielded. *)
Definition success_line (sc : StageCall) : option string -> string :=
  match sc with
  | call_login _ _ _ => fun _ => "Logged in successfully"
  | call_navigateToModeler _ => fun _ => "Navigated to Web Modeler"
  | call_createProcess _ processName _ =>
      fun _ => "Process " +++ dquote +++ processName +++ dquote
               +++ " created successfully"
  | call_runProcessInstance _ processName =>
      fun _ => "Process instance of " +++ dquote +++ processName +++ dquote
               +++ " started successfully"
  | call_verifyCompletion _ processName => verifyCompletion_line processName
  end.

(** The stage calls of [run], in the order of lines 20-24. *)
Definition pipeline (page : Page) : list StageCall :=
  [ call_login page (USERNAME cfg) (PASSWORD cfg);
    call_navigateToModeler page;
    call_createProcess page (PROCESS_NAME cfg) (REST_URL cfg);
    call_runProcessInstance page (PROCESS_NAME cfg);
    call_verifyCompletion page (PROCESS_NAME cfg) ].

Fixpoint in_turn (scs : list StageCall) : M unit :=
  match scs with
  | [] => ret tt
  | [sc] => invoke sc
  | sc :: rest => invoke sc ;; in_turn rest
  end.

(** What is left of the [try] block of [run] once [browser] is assigned
    (lines 17-24). *)
Definition after_launch (browser : Browser) : M unit :=
  context <- browser_newContext browser ;;
  page <- context_newPage context ;;
  in_turn (pipeline page).

End Stages.

(** The order in which [run] names the stages. *)
Definition stage_order : list Fn :=
  [fn_login; fn_navigateToModeler; fn_createProcess;
   fn_runProcessInstance; fn_verifyCompletion].

(** The [finally] block of [run] when [browser] is set: the close is
    awaited, and the run completes as [r] if it fulfils. *)
Definition close_after (r : Completion unit) (w : World) (s : State)
  : Completion unit * State :=
  match w (trace s) Close with
  | Fulfilled v => (r, record (Called Close (Fulfilled v)) s)
  | Rejected e => (Throw e, record (Called Close (Rejected e)) s)
  | Pending => (Suspended, record (Called Close Pending) s)
  end.

(** The stages of [run] one after the other, stopping at the first that
    does not complete normally. *)
Inductive piped (w : World) (cfg : Config) :
  list Event -> list StageCall -> list Event -> Completion unit -> Prop :=
| piped_done h :
    piped w cfg h [] [] (Normal tt)
| piped_next h sc rest evs evs' r :
    staged w h (fn_of sc) (script cfg sc) (success_line sc) evs (Normal tt) ->
    piped w cfg (h ++ evs) rest evs' r ->
    piped w cfg h (sc :: rest) (evs ++ evs') r
| piped_throw h sc rest evs e :
    staged w h (fn_of sc) (script cfg sc) (success_line sc) evs (Throw e) ->
    piped w cfg h (sc :: rest) evs (Throw e)
| piped_suspended h sc rest evs :
    staged w h (fn_of sc) (script cfg sc) (success_line sc) evs Suspended ->
    piped w cfg h (sc :: rest) evs Suspended.

(** The [try] block after the launch: context, page, then the stages. *)
Inductive booted (w : World) (cfg : Config) (h : list Event) :
  list Event -> Completion unit -> Prop :=
| booted_piped evs v evs' r :
    performs w h [NewContext; NewPage] None evs (Normal v) ->
    piped w cfg (h ++ evs) (pipeline cfg the_page) evs' r ->
    booted w cfg h (evs ++ evs') r
| booted_throw evs e :
    performs w h [NewContext; NewPage] None evs (Throw e) ->
    booted w cfg h evs (Throw e)
| booted_suspended evs :
    performs w h [NewContext; NewPage] None evs Suspended ->
    booted w cfg h evs Suspended.

(** How the promise returned by [run] settles once the browser close has
    been awaited. *)
Definition completion_of (close_reply : Reply) : Completion unit :=
  match close_reply with
  | Fulfilled _ => Normal tt
  | Rejected e => Throw e
  | Pending => Suspended
  end.

(** The ways a run can go: the launch rejects or never settles, or it
    fulfils and the rest of the [try] block completes normally, throws
    (and [run] catches), or never completes. *)
Inductive ran (w : World) (cfg : Config) :
  list Event -> Completion unit -> Prop :=
| ran_no_browser e :
    w [] (Launch false) = Rejected e ->
    ran w cfg [Called (Launch false) (Rejected e);
               ConsoleError ["An error occurred:"; message e]] (Normal tt)
| ran_launch_pending :
    w [] (Launch false) = Pending ->
    ran w cfg [Called (Launch false) Pending] Suspended
| ran_normal v evs rp :
    booted w cfg [Called (Launch false) (Fulfilled v)] evs (Normal tt) ->
    w (Called (Launch false) (Fulfilled v) :: evs) Close = rp ->
    ran w cfg (Called (Launch false) (Fulfilled v) :: evs ++ [Called Close rp])
      (completion_of rp)
| ran_caught v evs e rp :
    booted w cfg [Called (Launch false) (Fulfilled v)] evs (Throw e) ->
    w (Called (Launch false) (Fulfilled v)
       :: evs ++ [ConsoleError ["An error occurred:"; message e]]) Close = rp ->
    ran w cfg
      (Called (Launch false) (Fulfilled v)
       :: evs ++ [ConsoleError ["An error occurred:"; message e];
                  Called Close rp])
      (completion_of rp)
| ran_suspended v evs :
    booted w cfg [Called (Launch false) (Fulfilled v)] evs Suspended ->
    ran w cfg (Called (Launch false) (Fulfilled v) :: evs) Suspended.

(** A script that never closes the browser. *)
Definition never_closes (cs : list Call) : Prop := filter is_close cs = [].

(** The error a stage signals for an underlying error. *)
Definition wrap (f : Fn) (e : Error) : Error :=
  mkError (prefix f +++ message e).

(** [halts link evs r]: a normal completion leaves only fine events; an
    abrupt one leaves fine events and then the one call that rejected
    (or never settled). [link pre e e'] relates the rejection [e] to the
    error [e'] thrown, given the events [pre] before the call. *)
Definition halts {A} (link : list Event -> Error -> Error -> Prop)
    (evs : list Event) (r : Completion A) : Prop :=
  match r with
  | Normal _ => smooth evs
  | Throw e' =>
      exists pre c e,
        evs = pre ++ [Called c (Rejected e)] /\ smooth pre /\
        is_close c = false /\ link pre e e'
  | Suspended =>
      exists pre c,
        evs = pre ++ [Called c Pending] /\ smooth pre /\ is_close c = false
  end.

(** A world in which a call that was given a positive timeout always
    settles: Playwright rejects it when the time is up. *)
Definition honours_timeouts (w : World) : Prop :=
  forall h c t, explicit_timeout c = Some t -> (0 < t)%Z -> w h c <> Pending.

(** The one wait of the script that carries a timeout of its own. *)
Definition connector_wait : Call :=
  WaitForSelector "input#rest-url" (Some 5000%Z).

(** A world in which every call that carries a timeout runs out of time,
    and every other call fulfils. *)
Definition timeouts_expire : World :=
  fun _ c =>
    match explicit_timeout c with
    | Some _ => Rejected (mkError "Timeout 5000ms exceeded.")
    | None => Fulfilled None
    end.

(** A world that leaves the wait for the navigation unsettled and fulfils
    everything else. *)
Definition navigation_never_ends : World :=
  fun _ c =>
    match c with
    | WaitForNavigation None => Pending
    | _ => Fulfilled None
    end.

(** Two kinds of events looked for in traces. *)
Definition is_enter (ev : Event) : bool :=
  match ev with Enter _ => true | _ => false end.

Definition is_close_call (ev : Event) : bool :=
  match ev with Called Close _ => true | _ => false end.

(** A stage is entered only after launch, context and page fulfilled. *)
Definition boots_first (evs : list Event) : Prop :=
  forall pre f post,
    evs = pre ++ Enter f :: post ->
    exists v1 v2 v3 rest,
      pre = Called (Launch false) (Fulfilled v1)
            :: Called NewContext (Fulfilled v2)
            :: Called NewPage (Fulfilled v3) :: rest.

(** The session exists once the launch fulfilled. *)
Definition session_created (evs : list Event) : bool :=
  existsb (fun ev => match ev with
                     | Called (Launch _) (Fulfilled _) => true
                     | _ => false
                     end) evs.

(** The last events of a run, after the fine events [good]: what went
    wrong (if anything), the diagnostic, the close. *)
Inductive ending (good : list Event) : list Event -> Completion unit -> Prop :=
| ending_closed rp :
    session_created good = true ->
    invocations good = stage_order ->
    ending good [Called Close rp] (completion_of rp)
| ending_caught c e e' rp :
    session_created good = true ->
    is_close c = false ->
    (invocations good = [] /\ e' = e) \/
    (exists fs f, invocations good = fs ++ [f] /\ e' = wrap f e) ->
    ending good
      [Called c (Rejected e);
       ConsoleError ["An error occurred:"; message e'];
       Called Close rp]
      (completion_of rp)
| ending_stuck c :
    is_close c = false ->
    ending good [Called c Pending] Suspended
| ending_no_browser e :
    good = [] ->
    ending good
      [Called (Launch false) (Rejected e);
       ConsoleError ["An error occurred:"; message e]]
      (Normal tt).

(** A world that fulfils every call (with no text), except that the
    calls listed in [failing] reject with the given message. *)
Definition world_failing (failing : Call -> bool) (msg : string) : World :=
  fun _ c => if failing c then Rejected (mkError msg) else Fulfilled None.

Definition is_goto (c : Call) : bool :=
  match c with Goto _ => true | _ => false end.

(** A page that satisfies every call and shows the given status. *)
Definition cooperative (status : option string) : World :=
  fun _ c =>
    match c with
    | TextContent _ => Fulfilled status
    | _ => Fulfilled None
    end.

(** The calls by which the session is set up and released. *)
Definition manages_session (c : Call) : bool :=
  match c with
  | Launch _ | NewContext | NewPage | Close => true
  | _ => false
  end.

Definition is_launch (c : Call) : bool :=
  match c with Launch _ => true | _ => false end.

(** The values a call may carry in a run under configuration [cfg]: the
    URLs are built on the base URL, what is typed or selected is a
    configured value in the field meant for it, and the text is read from
    the status cell of the configured process. *)
Definition configured (cfg : Config) (c : Call) : Prop :=
  match c with
  | Goto url =>
      url = CAMUNDA_URL cfg +++ "/login" \/ url = CAMUNDA_URL cfg \/
      url = CAMUNDA_URL cfg +++ "/run"
  | Fill selector value =>
      (selector = "input[name=" +++ dquote +++ "username" +++ dquote +++ "]" /\
       value = USERNAME cfg) \/
      (selector = "input[name=" +++ dquote +++ "password" +++ dquote +++ "]" /\
       value = PASSWORD cfg) \/
      (selector = "input#process-name" /\ value = PROCESS_NAME cfg) \/
      (selector = "input#process-search" /\ value = PROCESS_NAME cfg)
  | HandleFill h value =>
      h = element "input#rest-url" /\ value = REST_URL cfg
  | HandleSelectOption h value =>
      h = element "select#process-name" /\ value = PROCESS_NAME cfg
  | TextContent selector => selector = status_cell (PROCESS_NAME cfg)
  | Launch headless => headless = false
  | _ => True
  end.

(* ================================================================== *)
(** * Proofs *)

(** ** Each stage function is an instance of [scripted] *)

(** Case analysis on how each call settles, one call after the other. *)
Ltac settle_calls w :=
  repeat (cbn;
          match goal with
          | |- context [w ?h ?c] => destruct (w h c)
          end);
  cbn.

Ltac scripted_stage_with f finish :=
  intros w s; unfold f, scripted;
  unfold bind, try_catch, call, emit, ret, throw, console_log,
    page_goto, page_fill, page_press, page_click, page_waitForNavigation,
    page_waitForSelector, page_textContent, handle_fill, handle_click,
    handle_selectOption, perform, bind, call, ret, record;
  settle_calls w; finish; reflexivity.

Ltac scripted_stage f := scripted_stage_with f idtac.

Lemma login_scripted cfg page username password :
  forall w s,
    login cfg page username password w s
    = scripted fn_login (login_calls cfg username password)
        (fun _ => "Logged in successfully") (prefix fn_login) w s.
Proof. scripted_stage login. Qed.

Lemma navigateToModeler_scripted cfg page :
  forall w s,
    navigateToModeler cfg page w s
    = scripted fn_navigateToModeler (navigateToModeler_calls cfg)
        (fun _ => "Navigated to Web Modeler") (prefix fn_navigateToModeler) w s.
Proof. scripted_stage navigateToModeler. Qed.

Lemma createProcess_scripted page processName restUrl :
  forall w s,
    createProcess page processName restUrl w s
    = scripted fn_createProcess (createProcess_calls processName restUrl)
        (fun _ => "Process " +++ dquote +++ processName +++ dquote
                  +++ " created successfully")
        (prefix fn_createProcess) w s.
Proof. scripted_stage createProcess. Qed.

Lemma runProcessInstance_scripted cfg page processName :
  forall w s,
    runProcessInstance cfg page processName w s
    = scripted fn_runProcessInstance (runProcessInstance_calls cfg processName)
        (fun _ => "Process instance of " +++ dquote +++ processName +++ dquote
                  +++ " started successfully")
        (prefix fn_runProcessInstance) w s.
Proof. scripted_stage runProcessInstance. Qed.

Lemma verifyCompletion_scripted page processName :
  forall w s,
    verifyCompletion page processName w s
    = scripted fn_verifyCompletion (verifyCompletion_calls processName)
        (verifyCompletion_line processName)
        (prefix fn_verifyCompletion) w s.
Proof.
  unfold verifyCompletion_line, verifyCompletion_calls, status_cell.
  scripted_stage_with verifyCompletion
      ltac:(try match goal with
                | |- context [strict_eq ?v ?t] => destruct (strict_eq v t)
                end).
Qed.

(** ** The functions meet their big-step descriptions *)

Lemma perform_performs w cs :
  forall last s,
  exists evs,
    trace (snd (perform cs last w s)) = trace s ++ evs /\
    var_browser (snd (perform cs last w s)) = var_browser s /\
    performs w (trace s) cs last evs (fst (perform cs last w s)).
Proof.
  induction cs as [|c cs IH]; intros last s; cbn.
  - exists []. rewrite app_nil_r. repeat split. constructor.
  - unfold bind, call.
    destruct (w (trace s) c) as [v|e|] eqn:E; cbn.
    + destruct (IH v (record (Called c (Fulfilled v)) s)) as (evs & Ht & Hb & Hp).
      exists (Called c (Fulfilled v) :: evs).
      destruct (perform cs v w _) as [r s']; cbn in *.
      rewrite Ht, <- app_assoc. repeat split; auto.
      now apply performs_fulfilled.
    + exists [Called c (Rejected e)]. repeat split. now constructor.
    + exists [Called c Pending]. repeat split. now constructor.
Qed.

Lemma scripted_staged w f cs line :
  forall s,
  exists evs,
    trace (snd (scripted f cs line (prefix f) w s)) = trace s ++ evs /\
    var_browser (snd (scripted f cs line (prefix f) w s)) = var_browser s /\
    staged w (trace s) f cs line evs (fst (scripted f cs line (prefix f) w s)).
Proof.
  intros s. unfold scripted, bind, try_catch, emit, console_log, throw. cbn.
  destruct (perform_performs w cs None (record (Enter f) s))
    as (evs & Ht & Hb & Hp).
  destruct (perform cs None w _) as [[v|e|] s']; cbn in *.
  - exists (Enter f :: evs ++ [ConsoleLog [line v]]).
    rewrite Ht, <- !app_assoc. repeat split; auto. now constructor.
  - exists (Enter f :: evs). rewrite Ht, <- app_assoc.
    repeat split; auto. now constructor.
  - exists (Enter f :: evs). rewrite Ht, <- app_assoc.
    repeat split; auto. now constructor.
Qed.

Lemma invoke_scripted cfg sc w s :
  invoke cfg sc w s
  = scripted (fn_of sc) (script cfg sc) (success_line sc) (prefix (fn_of sc)) w s.
Proof.
  destruct sc; cbn [invoke fn_of script success_line].
  - apply login_scripted.
  - apply navigateToModeler_scripted.
  - apply createProcess_scripted.
  - apply runProcessInstance_scripted.
  - apply verifyCompletion_scripted.
Qed.

(** Every stage run has the big-step shape of its script. *)
Lemma invoke_staged cfg sc w s :
  exists evs,
    trace (snd (invoke cfg sc w s)) = trace s ++ evs /\
    var_browser (snd (invoke cfg sc w s)) = var_browser s /\
    staged w (trace s) (fn_of sc) (script cfg sc) (success_line sc) evs
      (fst (invoke cfg sc w s)).
Proof. rewrite invoke_scripted. apply scripted_staged. Qed.

(** [run] by cases on how the launch settles and how the rest of the
    [try] block completes. *)
Lemma run_unfold cfg w :
  run cfg w initial =
  match w [] (Launch false) with
  | Fulfilled v =>
      match after_launch cfg the_browser w
              {| trace := [Called (Launch false) (Fulfilled v)];
                 var_browser := Some the_browser |} with
      | (Normal _, s) =>
          match var_browser s with
          | Some _ => close_after (Normal tt) w s
          | None => (Normal tt, s)
          end
      | (Throw e, s) =>
          let s' := record (ConsoleError ["An error occurred:"; message e]) s in
          match var_browser s with
          | Some _ => close_after (Normal tt) w s'
          | None => (Normal tt, s')
          end
      | (Suspended, s) => (Suspended, s)
      end
  | Rejected e =>
      (Normal tt,
       {| trace := [Called (Launch false) (Rejected e);
                    ConsoleError ["An error occurred:"; message e]];
          var_browser := None |})
  | Pending =>
      (Suspended,
       {| trace := [Called (Launch false) Pending]; var_browser := None |})
  end.
Proof.
  unfold run, after_launch, pipeline, in_turn.
  unfold bind at 1. unfold declare_browser. cbn [trace initial].
  unfold try_finally, try_catch at 1.
  unfold chromium_launch. unfold bind at 1. unfold bind at 1.
  unfold call at 1. cbn [trace].
  destruct (w [] (Launch false)) as [v|e|]; cbn.
  - match goal with
    | |- context [bind ?m ?k w ?s] => destruct (bind m k w s) as [[[]|e|] s']
    end; cbn; try reflexivity.
    + unfold close_after, browser_close, bind, call, ret.
      destruct (var_browser s') as [[]|]; [|reflexivity].
      cbn. destruct (w (trace s') Close); reflexivity.
    + unfold close_after, console_error, emit, browser_close, bind, call, ret.
      cbn. destruct (var_browser s') as [[]|]; [|reflexivity].
      cbn. destruct (w _ Close); reflexivity.
  - reflexivity.
  - reflexivity.
Qed.

Lemma in_turn_piped w cfg scs :
  forall s,
  exists evs,
    trace (snd (in_turn cfg scs w s)) = trace s ++ evs /\
    var_browser (snd (in_turn cfg scs w s)) = var_browser s /\
    piped w cfg (trace s) scs evs (fst (in_turn cfg scs w s)).
Proof.
  induction scs as [|sc rest IH]; intros s.
  - exists []. cbn. rewrite app_nil_r. repeat split. constructor.
  - assert (E : in_turn cfg (sc :: rest) w s
                = (invoke cfg sc ;; in_turn cfg rest) w s).
    { destruct rest; [|reflexivity]. cbn. unfold bind, ret.
      destruct (invoke cfg sc w s) as [[[]| |] ?]; reflexivity. }
    rewrite E. clear E. unfold bind.
    destruct (invoke_staged cfg sc w s) as (evs & Ht & Hb & Hs).
    destruct (invoke cfg sc w s) as [[[]|e|] s1]; cbn in Ht, Hb, Hs.
    + destruct (IH s1) as (evs' & Ht' & Hb' & Hp).
      exists (evs ++ evs'). rewrite Ht', Hb', Ht, app_assoc.
      repeat split; auto. rewrite Ht in Hp. now apply piped_next.
    + exists evs. cbn. repeat split; auto. now apply piped_throw.
    + exists evs. cbn. repeat split; auto. now apply piped_suspended.
Qed.

Lemma after_launch_booted w cfg b s :
  exists evs,
    trace (snd (after_launch cfg b w s)) = trace s ++ evs /\
    var_browser (snd (after_launch cfg b w s)) = var_browser s /\
    booted w cfg (trace s) evs (fst (after_launch cfg b w s)).
Proof.
  assert (E : after_launch cfg b w s
              = (perform [NewContext; NewPage] None ;;
                 in_turn cfg (pipeline cfg the_page)) w s).
  { unfold after_launch, browser_newContext, context_newPage, perform,
      bind, call, ret.
    destruct (w (trace s) NewContext); cbn; try reflexivity.
    destruct (w _ NewPage); reflexivity. }
  rewrite E. clear E. unfold bind.
  destruct (perform_performs w [NewContext; NewPage] None s)
    as (evs & Ht & Hb & Hp).
  destruct (perform _ None w s) as [[v|e|] s1]; cbn in Ht, Hb, Hp.
  - destruct (in_turn_piped w cfg (pipeline cfg the_page) s1)
      as (evs' & Ht' & Hb' & Hq).
    exists (evs ++ evs'). rewrite Ht', Hb', Ht, app_assoc.
    repeat split; auto. rewrite Ht in Hq. now apply booted_piped with v.
  - exists evs. cbn. repeat split; auto. now apply booted_throw.
  - exists evs. cbn. repeat split; auto. now apply booted_suspended.
Qed.

Lemma run_ran cfg w :
  ran w cfg (trace (snd (run cfg w initial))) (fst (run cfg w initial)).
Proof.
  rewrite run_unfold.
  destruct (w [] (Launch false)) as [v|e|] eqn:EL.
  - match goal with
    | |- context [after_launch cfg ?b w ?s] =>
        destruct (after_launch_booted w cfg b s) as (evs & Ht & Hb & Hp);
        destruct (after_launch cfg b w s) as [[[]|e|] s1]
    end; cbn in Ht, Hb, Hp; rewrite ?Hb.
    + unfold close_after. rewrite Ht.
      destruct (w _ Close) as [u|e|] eqn:EC; cbn; rewrite Ht; cbn.
      * now apply (ran_normal w cfg v evs (Fulfilled u)).
      * now apply (ran_normal w cfg v evs (Rejected e)).
      * now apply (ran_normal w cfg v evs Pending).
    + unfold close_after. cbn. rewrite Ht. cbn.
      destruct (w _ Close) as [u|e'|] eqn:EC; cbn; rewrite Ht; cbn;
        rewrite <- app_assoc; cbn.
      * now apply (ran_caught w cfg v evs e (Fulfilled u)).
      * now apply (ran_caught w cfg v evs e (Rejected e')).
      * now apply (ran_caught w cfg v evs e Pending).
    + cbn. rewrite Ht. now apply ran_suspended.
  - cbn. now apply ran_no_browser.
  - cbn. now apply ran_launch_pending.
Qed.

(* ================================================================== *)
(** ** Reading traces: basic facts *)

Lemma invocations_app a b : invocations (a ++ b) = invocations a ++ invocations b.
Proof. induction a as [|[] a IH]; cbn; now rewrite ?IH. Qed.

Lemma calls_app a b : calls (a ++ b) = calls a ++ calls b.
Proof. induction a as [|[] a IH]; cbn; now rewrite ?IH. Qed.

Lemma errors_logged_app a b :
  errors_logged (a ++ b) = errors_logged a ++ errors_logged b.
Proof. induction a as [|[] a IH]; cbn; now rewrite ?IH. Qed.

Lemma lines_logged_app a b :
  lines_logged (a ++ b) = lines_logged a ++ lines_logged b.
Proof. induction a as [|[] a IH]; cbn; now rewrite ?IH. Qed.

Lemma closes_app a b : closes (a ++ b) = closes a + closes b.
Proof. unfold closes. now rewrite calls_app, filter_app, length_app. Qed.

Lemma smooth_app a b : smooth (a ++ b) <-> smooth a /\ smooth b.
Proof. unfold smooth. rewrite forallb_app. apply andb_true_iff. Qed.

Lemma smooth_In evs ev : smooth evs -> In ev evs -> fine ev = true.
Proof. unfold smooth. rewrite forallb_forall. auto. Qed.

Lemma In_calls c rp evs : In (Called c rp) evs -> In c (calls evs).
Proof.
  induction evs as [|ev evs IH]; cbn; [auto|].
  intros [->|Hin]; [now left|].
  destruct ev; cbn; auto.
Qed.

Lemma In_invocations f evs : In (Enter f) evs <-> In f (invocations evs).
Proof.
  induction evs as [|ev evs IH]; cbn; [tauto|].
  destruct ev; cbn; rewrite <- IH;
    intuition (try discriminate; try congruence).
Qed.

Lemma never_closes_In cs c : never_closes cs -> In c cs -> is_close c = false.
Proof.
  unfold never_closes. intros H Hin.
  destruct (is_close c) eqn:E; [|reflexivity].
  assert (Hf : In c (filter is_close cs)) by (apply filter_In; auto).
  rewrite H in Hf. contradiction.
Qed.

Lemma never_closes_firstn cs n : never_closes cs -> never_closes (firstn n cs).
Proof.
  unfold never_closes. revert n. induction cs as [|c cs IH]; intros [|n] H; cbn in *;
    try reflexivity.
  destruct (is_close c); [discriminate|]. auto.
Qed.

Lemma script_never_closes cfg sc : never_closes (script cfg sc).
Proof. destruct sc; reflexivity. Qed.

(** Where in a list an element with a given property can sit, when the
    list is known to start with a run of elements without it. *)
Lemma locate {A} (P : A -> bool) (run : list A) rest pre x post :
  forallb (fun a => negb (P a)) run = true ->
  P x = true ->
  pre ++ x :: post = run ++ rest ->
  exists mid, pre = run ++ mid /\ rest = mid ++ x :: post.
Proof.
  intros Hrun Hx E. apply app_eq_app in E.
  destruct E as (l & [[-> ->]|[-> E]]).
  - now exists l.
  - destruct l as [|y l]; cbn in E.
    + exists []. rewrite !app_nil_r. split; [reflexivity | now symmetry].
    + injection E as <- ->.
      rewrite forallb_app in Hrun. cbn in Hrun. rewrite Hx in Hrun.
      cbn in Hrun. rewrite andb_false_r in Hrun. discriminate.
Qed.

(** Where an element with property [P] sits in [run ++ rest] when no
    element of [run] has it. *)
Lemma locate_in_rest {A} (P : A -> bool) (run : list A) rest pre x post :
  (forall a, In a run -> P a = false) ->
  P x = true ->
  pre ++ x :: post = run ++ rest ->
  exists mid, pre = run ++ mid /\ rest = mid ++ x :: post.
Proof.
  intros Hrun. apply locate. apply forallb_forall.
  intros a Ha. now rewrite (Hrun a Ha).
Qed.

(** ... and when no element of [rest] has it. *)
Lemma locate_in_run {A} (P : A -> bool) (run : list A) rest pre x post :
  (forall a, In a rest -> P a = false) ->
  P x = true ->
  pre ++ x :: post = run ++ rest ->
  exists mid, run = pre ++ x :: mid /\ post = mid ++ rest.
Proof.
  intros Hrest Hx E. apply app_eq_app in E.
  destruct E as (l & [[-> ->]|[-> E]]).
  - assert (Hin : In x (l ++ x :: post)) by (apply in_or_app; right; now left).
    apply Hrest in Hin. congruence.
  - destruct l as [|y l]; cbn in E.
    + assert (Hin : In x rest) by (rewrite <- E; now left).
      apply Hrest in Hin. congruence.
    + injection E as <- ->. now exists l.
Qed.

Lemma smooth_In_failure evs ev : smooth evs -> In ev evs -> negb (fine ev) = false.
Proof. intros Hs Hin. now rewrite (smooth_In _ _ Hs Hin). Qed.

(* ================================================================== *)
(** ** How scripts, stages and the pipeline can end *)

Lemma halts_prepend {A} (link link' : list Event -> Error -> Error -> Prop)
    a b (r : Completion A) :
  smooth a ->
  (forall pre e e', link pre e e' -> link' (a ++ pre) e e') ->
  halts link b r -> halts link' (a ++ b) r.
Proof.
  intros Ha Hl. destruct r as [x|e'|]; cbn.
  - intros Hb. now apply smooth_app.
  - intros (pre & c & e & -> & Hs & Hc & Hk).
    exists (a ++ pre), c, e. rewrite app_assoc. repeat split; auto.
    now apply smooth_app.
  - intros (pre & c & -> & Hs & Hc).
    exists (a ++ pre), c. rewrite app_assoc. repeat split; auto.
    now apply smooth_app.
Qed.

Lemma performs_invocations w h cs last evs r :
  performs w h cs last evs r -> invocations evs = [].
Proof. induction 1; auto. Qed.

Lemma performs_errors_logged w h cs last evs r :
  performs w h cs last evs r -> errors_logged evs = [].
Proof. induction 1; auto. Qed.

Lemma performs_lines_logged w h cs last evs r :
  performs w h cs last evs r -> lines_logged evs = [].
Proof. induction 1; auto. Qed.

(** The calls made are an initial part of the script, all of it when the
    script completes normally. *)
Lemma performs_calls w h cs last evs r :
  performs w h cs last evs r ->
  exists n, calls evs = firstn n cs /\
            (forall v, r = Normal v -> calls evs = cs).
Proof.
  induction 1 as [h last|h c cs last v evs r Hw Hp (n & IH & IHn)|h c cs last e Hw
                 |h c cs last Hw].
  - exists 0. split; auto.
  - exists (S n). split.
    + cbn. f_equal. exact IH.
    + intros v' Hr. cbn. f_equal. exact (IHn v' Hr).
  - exists 1. split; [reflexivity | discriminate].
  - exists 1. split; [reflexivity | discriminate].
Qed.

Lemma performs_closes w h cs last evs r :
  performs w h cs last evs r -> never_closes cs -> closes evs = 0.
Proof.
  intros Hp Hn. destruct (performs_calls _ _ _ _ _ _ Hp) as (n & Hc & _).
  unfold closes. rewrite Hc.
  now rewrite (never_closes_firstn cs n Hn).
Qed.

Lemma performs_halts w h cs last evs r :
  performs w h cs last evs r ->
  never_closes cs ->
  halts (fun pre e e' => invocations pre = [] /\ e' = e) evs r.
Proof.
  induction 1 as [h last|h c cs last v evs r Hw Hp IH|h c cs last e Hw
                 |h c cs last Hw]; intros Hn.
  - reflexivity.
  - assert (Hn' : never_closes cs).
    { unfold never_closes in *. cbn in Hn. now destruct (is_close c). }
    change (Called c (Fulfilled v) :: evs)
      with ([Called c (Fulfilled v)] ++ evs).
    eapply halts_prepend; [reflexivity | | now apply IH].
    intros pre e e' [Hi ->]. split; [|reflexivity].
    cbn. assumption.
  - exists [], c, e. repeat split.
    apply (never_closes_In (c :: cs)); [assumption | now left].
  - exists [], c. repeat split.
    apply (never_closes_In (c :: cs)); [assumption | now left].
Qed.

(** View [ev :: l] as [[ev] ++ l], so that the [_app] equations apply. *)
Ltac head_as_app :=
  repeat match goal with
         | |- context [?ev :: ?l] =>
             lazymatch l with
             | [] => fail
             | _ => change (ev :: l) with ([ev] ++ l)
             end
         end.

Section StagedFacts.

Context {w : World} {h : list Event} {f : Fn} {cs : list Call}
  {line : option string -> string} {evs : list Event} {r : Completion unit}.
Hypothesis Hstaged : staged w h f cs line evs r.

Lemma staged_invocations : invocations evs = [f].
Proof.
  destruct Hstaged as [evs0 v Hp|evs0 e Hp|evs0 Hp]; head_as_app;
    rewrite ?invocations_app, (performs_invocations _ _ _ _ _ _ Hp);
    reflexivity.
Qed.

Lemma staged_errors_logged : errors_logged evs = [].
Proof.
  destruct Hstaged as [evs0 v Hp|evs0 e Hp|evs0 Hp]; head_as_app;
    rewrite ?errors_logged_app, (performs_errors_logged _ _ _ _ _ _ Hp);
    reflexivity.
Qed.

Lemma staged_calls :
  exists n, calls evs = firstn n cs /\ (r = Normal tt -> calls evs = cs).
Proof.
  destruct Hstaged as [evs0 v Hp|evs0 e Hp|evs0 Hp];
    destruct (performs_calls _ _ _ _ _ _ Hp) as (n & Hc & Hn);
    exists n; head_as_app; rewrite ?calls_app; cbn; rewrite ?app_nil_r;
    (split; [exact Hc|]); try discriminate.
  intros _. exact (Hn v eq_refl).
Qed.

(** The one line a stage logs when it completes, none otherwise. *)
Lemma staged_lines_logged :
  match r with
  | Normal _ => exists evs0 v, evs = Enter f :: evs0 ++ [ConsoleLog [line v]] /\
                               performs w (h ++ [Enter f]) cs None evs0 (Normal v) /\
                               lines_logged evs = [[line v]]
  | _ => lines_logged evs = []
  end.
Proof.
  destruct Hstaged as [evs0 v Hp|evs0 e Hp|evs0 Hp];
    [exists evs0, v; split; [reflexivity | split; [assumption|]] | |];
    head_as_app;
    rewrite ?lines_logged_app, (performs_lines_logged _ _ _ _ _ _ Hp);
    reflexivity.
Qed.

Hypothesis Hcs : never_closes cs.

Lemma staged_closes : closes evs = 0.
Proof.
  destruct Hstaged as [evs0 v Hp|evs0 e Hp|evs0 Hp]; head_as_app;
    rewrite ?closes_app, (performs_closes _ _ _ _ _ _ Hp Hcs); reflexivity.
Qed.

Lemma staged_halts :
  halts (fun pre e e' => invocations pre = [f] /\ e' = wrap f e) evs r.
Proof.
  destruct Hstaged as [evs0 v Hp|evs0 e Hp|evs0 Hp];
    pose proof (performs_halts _ _ _ _ _ _ Hp Hcs) as Hh; cbn in Hh.
  - cbn. unfold smooth in *. cbn. rewrite forallb_app, Hh. reflexivity.
  - destruct Hh as (pre & c & e0 & -> & Hs & Hc & Hi & ->).
    exists (Enter f :: pre), c, e0. repeat split; auto.
    change (invocations (Enter f :: pre)) with (f :: invocations pre).
    now rewrite Hi.
  - destruct Hh as (pre & c & -> & Hs & Hc).
    exists (Enter f :: pre), c. repeat split; auto.
Qed.

End StagedFacts.

Section PipedFacts.

Context {w : World} {cfg : Config}.

Lemma piped_invocations h scs evs r :
  piped w cfg h scs evs r ->
  exists k, invocations evs = firstn k (map fn_of scs) /\
            (r = Normal tt -> invocations evs = map fn_of scs).
Proof.
  induction 1 as [h|h sc rest evs evs' r Hs Hp (k & IH & IHn)|h sc rest evs e Hs
                 |h sc rest evs Hs].
  - exists 0. split; reflexivity.
  - exists (S k). rewrite invocations_app, (staged_invocations Hs). cbn.
    rewrite IH. split; [reflexivity|].
    intros Hr. rewrite <- IH. f_equal. auto.
  - exists 1. rewrite (staged_invocations Hs). split; [reflexivity|discriminate].
  - exists 1. rewrite (staged_invocations Hs). split; [reflexivity|discriminate].
Qed.

Lemma piped_errors_logged h scs evs r :
  piped w cfg h scs evs r -> errors_logged evs = [].
Proof.
  induction 1 as [h|h sc rest evs evs' r Hs Hp IH|h sc rest evs e Hs
                 |h sc rest evs Hs];
    rewrite ?errors_logged_app, ?(staged_errors_logged Hs); auto.
Qed.

Lemma piped_closes h scs evs r :
  piped w cfg h scs evs r -> closes evs = 0.
Proof.
  induction 1 as [h|h sc rest evs evs' r Hs Hp IH|h sc rest evs e Hs
                 |h sc rest evs Hs];
    rewrite ?closes_app, ?(staged_closes Hs (script_never_closes cfg sc)); auto.
Qed.

Lemma piped_halts h scs evs r :
  piped w cfg h scs evs r ->
  halts (fun pre e e' =>
           exists fs f, invocations pre = fs ++ [f] /\ e' = wrap f e) evs r.
Proof.
  induction 1 as [h|h sc rest evs evs' r Hs Hp IH|h sc rest evs e Hs
                 |h sc rest evs Hs].
  - reflexivity.
  - eapply halts_prepend; [| |exact IH].
    + exact (staged_halts Hs (script_never_closes cfg sc)).
    + intros pre e e' (fs & f & Hi & ->).
      exists (invocations evs ++ fs), f.
      now rewrite invocations_app, Hi, app_assoc.
  - pose proof (staged_halts Hs (script_never_closes cfg sc))
      as (pre & c & e0 & -> & Hsm & Hc & Hi & ->).
    exists pre, c, e0. repeat split; auto. now exists [], (fn_of sc).
  - pose proof (staged_halts Hs (script_never_closes cfg sc))
      as (pre & c & -> & Hsm & Hc).
    exists pre, c. repeat split; auto.
Qed.

End PipedFacts.

Section BootedFacts.

Context {w : World} {cfg : Config} {h : list Event} {evs : list Event}
  {r : Completion unit}.
Hypothesis Hbooted : booted w cfg h evs r.

Lemma bootstrap_never_closes : never_closes [NewContext; NewPage].
Proof. reflexivity. Qed.

Lemma booted_invocations :
  exists k, invocations evs = firstn k stage_order /\
            (r = Normal tt -> invocations evs = stage_order).
Proof.
  destruct Hbooted as [evs0 v evs' r Hp Hq|evs0 e Hp|evs0 Hp].
  - rewrite invocations_app, (performs_invocations _ _ _ _ _ _ Hp).
    exact (piped_invocations _ _ _ _ Hq).
  - exists 0. rewrite (performs_invocations _ _ _ _ _ _ Hp).
    split; [reflexivity|discriminate].
  - exists 0. rewrite (performs_invocations _ _ _ _ _ _ Hp).
    split; [reflexivity|discriminate].
Qed.

Lemma booted_errors_logged : errors_logged evs = [].
Proof.
  destruct Hbooted as [evs0 v evs' r Hp Hq|evs0 e Hp|evs0 Hp];
    rewrite ?errors_logged_app, (performs_errors_logged _ _ _ _ _ _ Hp);
    [exact (piped_errors_logged _ _ _ _ Hq) | reflexivity..].
Qed.

Lemma booted_closes : closes evs = 0.
Proof.
  destruct Hbooted as [evs0 v evs' r Hp Hq|evs0 e Hp|evs0 Hp];
    rewrite ?closes_app,
      (performs_closes _ _ _ _ _ _ Hp bootstrap_never_closes);
    [exact (piped_closes _ _ _ _ Hq) | reflexivity..].
Qed.

(** A stage is entered only after the context and the page were created. *)
Lemma booted_enter pre f post :
  evs = pre ++ Enter f :: post ->
  exists v2 v3 rest,
    pre = Called NewContext (Fulfilled v2)
          :: Called NewPage (Fulfilled v3) :: rest.
Proof.
  intros E.
  destruct Hbooted as [evs0 v evs' r Hp Hq|evs0 e Hp|evs0 Hp].
  - inversion Hp as [| ? ? ? ? v2 evs1 ? Hw2 Hp2 | |]; subst.
    inversion Hp2 as [| ? ? ? ? v3 evs2 ? Hw3 Hp3 | |]; subst.
    inversion Hp3; subst. cbn in E.
    destruct pre as [|a [|b rest]]; cbn in E; try discriminate.
    injection E as <- <- _. now exists v2, v, rest.
  - pose proof (performs_invocations _ _ _ _ _ _ Hp) as Hi.
    rewrite E, invocations_app in Hi. cbn in Hi.
    now destruct (invocations pre).
  - pose proof (performs_invocations _ _ _ _ _ _ Hp) as Hi.
    rewrite E, invocations_app in Hi. cbn in Hi.
    now destruct (invocations pre).
Qed.

Lemma booted_halts :
  halts (fun pre e e' =>
           (invocations pre = [] /\ e' = e) \/
           (exists fs f, invocations pre = fs ++ [f] /\ e' = wrap f e)) evs r.
Proof.
  destruct Hbooted as [evs0 v evs' r Hp Hq|evs0 e Hp|evs0 Hp];
    pose proof (performs_halts _ _ _ _ _ _ Hp bootstrap_never_closes) as Hh.
  - eapply halts_prepend; [exact Hh | | exact (piped_halts _ _ _ _ Hq)].
    intros pre e e' (fs & f & Hi & ->). right.
    exists fs, f. rewrite invocations_app,
      (performs_invocations _ _ _ _ _ _ Hp). auto.
  - destruct Hh as (pre & c & e0 & -> & Hs & Hc & Hk).
    exists pre, c, e0. repeat split; auto.
  - exact Hh.
Qed.

End BootedFacts.

(** Every reply recorded by a script is the world's. *)
Lemma performs_replies w h cs last evs r :
  performs w h cs last evs r ->
  forall c rp, In (Called c rp) evs -> exists h', w h' c = rp.
Proof.
  induction 1 as [h last|h c cs last v evs r Hw Hp IH|h c cs last e Hw
                 |h c cs last Hw]; intros c' rp Hin; cbn in Hin.
  - contradiction.
  - destruct Hin as [E|Hin]; [injection E as <- <-; eauto | eauto].
  - destruct Hin as [E|[]]. injection E as <- <-. eauto.
  - destruct Hin as [E|[]]. injection E as <- <-. eauto.
Qed.

(** The text a script ends with is what its last call yielded. *)
Lemma performs_last_text w c :
  forall cs h last evs r,
    performs w h (cs ++ [c]) last evs r ->
    ~ In c cs ->
    forall v, In (Called c (Fulfilled v)) evs -> r = Normal v.
Proof.
  induction cs as [|c0 cs IH]; intros h last evs r Hp Hnot v Hin; cbn in Hp.
  - inversion Hp as [|? ? ? ? v' evs' ? Hw Hp'| |]; subst; cbn in Hin.
    + inversion Hp'; subst. destruct Hin as [E|[]]. now injection E as ->.
    + destruct Hin as [E|[]]. discriminate.
    + destruct Hin as [E|[]]. discriminate.
  - inversion Hp as [|? ? ? ? v' evs' ? Hw Hp'| |]; subst; cbn in Hin.
    + destruct Hin as [E|Hin].
      * injection E as -> _. exfalso. apply Hnot. now left.
      * apply (IH _ _ _ _ Hp'); [|assumption].
        intros H. apply Hnot. now right.
    + destruct Hin as [E|[]]. discriminate.
    + destruct Hin as [E|[]]. discriminate.
Qed.

(** A rejected call inside a stage makes the stage throw the wrapped
    error; and a stage throws for no other reason. *)
Lemma staged_rejection w h f cs line evs r :
  staged w h f cs line evs r ->
  never_closes cs ->
  (forall c err, In (Called c (Rejected err)) evs -> r = Throw (wrap f err)) /\
  (forall e', r = Throw e' ->
     exists c err, In (Called c (Rejected err)) evs /\ e' = wrap f err) /\
  (r = Normal tt <-> smooth evs).
Proof.
  intros Hs Hn. pose proof (staged_halts Hs Hn) as Hh.
  destruct r as [[]|e'|]; cbn in Hh.
  - repeat split; auto; try discriminate.
    intros c err Hin. now apply (smooth_In _ _ Hh) in Hin.
  - destruct Hh as (pre & c & e & -> & Hsm & Hc & Hi & ->).
    repeat split; try discriminate.
    + intros c' err Hin. apply in_app_or in Hin.
      destruct Hin as [Hin|[E|[]]].
      * now apply (smooth_In _ _ Hsm) in Hin.
      * now injection E as _ ->.
    + intros e' [= <-]. exists c, e. split; [|reflexivity].
      apply in_or_app. right. now left.
    + intros Hsmooth. apply smooth_app in Hsmooth. now destruct Hsmooth.
  - destruct Hh as (pre & c & -> & Hsm & Hc).
    repeat split; try discriminate.
    + intros c' err Hin. apply in_app_or in Hin.
      destruct Hin as [Hin|[E|[]]].
      * now apply (smooth_In _ _ Hsm) in Hin.
      * discriminate.
    + intros Hsmooth. apply smooth_app in Hsmooth. now destruct Hsmooth.
Qed.

(* ================================================================== *)
(** ** Configuration *)

(** C4: a variable that is unset resolves to its literal fallback:
    CAMUNDA_URL, USERNAME and PASSWORD to the empty string, PROCESS_NAME
    to "Test Process", REST_URL to "https://api.example.com/data". The
    constants are resolved once, before [run] starts: the run is given
    the resolved record and nothing else of the environment, so two
    environments that resolve alike give the same run. *)
Theorem unset_variable_resolves_to_fallback (env : Env) :
  (env "CAMUNDA_URL" = None -> CAMUNDA_URL (load_config env) = EmptyString) /\
  (env "USERNAME" = None -> USERNAME (load_config env) = EmptyString) /\
  (env "PASSWORD" = None -> PASSWORD (load_config env) = EmptyString) /\
  (env "PROCESS_NAME" = None ->
     PROCESS_NAME (load_config env) = "Test Process") /\
  (env "REST_URL" = None ->
     REST_URL (load_config env) = "https://api.example.com/data") /\
  (forall env' w,
     load_config env' = load_config env -> main env' w = main env w).
Proof.
  repeat apply conj;
    try (intros H; unfold load_config;
         cbn [CAMUNDA_URL USERNAME PASSWORD PROCESS_NAME REST_URL];
         rewrite H; reflexivity).
  intros env' w E. unfold main. now rewrite E.
Qed.

Lemma unset_variable_resolves_to_fallback_witness :
  CAMUNDA_URL (load_config (fun _ => None)) = EmptyString /\
  USERNAME (load_config (fun _ => None)) = EmptyString /\
  PASSWORD (load_config (fun _ => None)) = EmptyString /\
  PROCESS_NAME (load_config (fun _ => None)) = "Test Process" /\
  REST_URL (load_config (fun _ => None)) = "https://api.example.com/data".
Proof.
  destruct (unset_variable_resolves_to_fallback (fun _ => None))
    as (H1 & H2 & H3 & H4 & H5 & _).
  repeat apply conj; [apply H1|apply H2|apply H3|apply H4|apply H5];
    reflexivity.
Defined.

(** C8: a variable that is set to the empty string resolves to its
    fallback too, because the empty string is falsy; a variable set to a
    non-empty string resolves to that string. *)
Theorem empty_variable_resolves_to_fallback (env : Env) :
  (env "CAMUNDA_URL" = Some EmptyString ->
     CAMUNDA_URL (load_config env) = EmptyString) /\
  (env "USERNAME" = Some EmptyString ->
     USERNAME (load_config env) = EmptyString) /\
  (env "PASSWORD" = Some EmptyString ->
     PASSWORD (load_config env) = EmptyString) /\
  (env "PROCESS_NAME" = Some EmptyString ->
     PROCESS_NAME (load_config env) = "Test Process") /\
  (env "REST_URL" = Some EmptyString ->
     REST_URL (load_config env) = "https://api.example.com/data") /\
  (forall v fallback,
     or_default v fallback = fallback <->
     v = None \/ v = Some EmptyString \/ v = Some fallback).
Proof.
  repeat apply conj;
    try (intros H; unfold load_config;
         cbn [CAMUNDA_URL USERNAME PASSWORD PROCESS_NAME REST_URL];
         rewrite H; reflexivity).
  intros v fallback. split.
  - destruct v as [[|a s]|]; cbn; auto.
    intros <-. auto.
  - intros [->|[->| ->]]; cbn; try reflexivity.
    now destruct fallback.
Qed.

Lemma empty_variable_resolves_to_fallback_witness :
  PROCESS_NAME (load_config (fun _ => Some EmptyString)) = "Test Process" /\
  REST_URL (load_config (fun _ => Some EmptyString))
  = "https://api.example.com/data".
Proof.
  destruct (empty_variable_resolves_to_fallback (fun _ => Some EmptyString))
    as (_ & _ & _ & H4 & H5 & _).
  split; [apply H4 | apply H5]; reflexivity.
Defined.

(* ================================================================== *)
(** ** The stages *)

(** C2: in each of the five stage functions, a Playwright call that
    rejects with an error of message M makes the stage throw an error
    whose message is the stage's fixed prefix followed by M, whichever
    call it was; and a stage throws nothing else. *)
Theorem stage_error_is_prefix_and_message cfg sc w s :
  exists evs,
    trace (snd (invoke cfg sc w s)) = trace s ++ evs /\
    (forall c M,
       In (Called c (Rejected (mkError M))) evs ->
       fst (invoke cfg sc w s) = Throw (mkError (prefix (fn_of sc) +++ M))) /\
    (forall e,
       fst (invoke cfg sc w s) = Throw e ->
       exists c M,
         In (Called c (Rejected (mkError M))) evs /\
         e = mkError (prefix (fn_of sc) +++ M)).
Proof.
  destruct (invoke_staged cfg sc w s) as (evs & Ht & _ & Hs).
  destruct (staged_rejection _ _ _ _ _ _ _ Hs (script_never_closes cfg sc))
    as (Hrej & Hthrow & _).
  exists evs. split; [assumption|]. split.
  - intros c M Hin. exact (Hrej c (mkError M) Hin).
  - intros e He. destruct (Hthrow e He) as (c & [M] & Hin & ->).
    now exists c, M.
Qed.

Lemma stage_error_is_prefix_and_message_witness :
  fst (login (load_config (fun _ => None)) the_page "user" "secret"
         (world_failing is_goto "timeout") initial)
  = Throw (mkError "Login failed: timeout").
Proof.
  destruct (stage_error_is_prefix_and_message (load_config (fun _ => None))
              (call_login the_page "user" "secret")
              (world_failing is_goto "timeout") initial)
    as (evs & Ht & Hrej & _).
  apply (Hrej (Goto "/login") "timeout").
  change (trace initial ++ evs) with evs in Ht. rewrite <- Ht.
  right. left. reflexivity.
Defined.

(** The spec's example: a "timeout" under [login]. *)
Example login_timeout cfg :
  fst (login cfg the_page "user" "secret"
         (fun _ _ => Rejected (mkError "timeout")) initial)
  = Throw (mkError "Login failed: timeout").
Proof. reflexivity. Qed.

(** How [verifyCompletion] ends once the status cell's text was read. *)
Lemma verifyCompletion_outcome page processName w s :
  exists evs,
    trace (snd (verifyCompletion page processName w s)) = trace s ++ evs /\
    forall text,
      In (Called (TextContent (status_cell processName)) (Fulfilled text)) evs ->
      fst (verifyCompletion page processName w s) = Normal tt /\
      lines_logged evs = [[verifyCompletion_line processName text]].
Proof.
  destruct (scripted_staged w fn_verifyCompletion
              (verifyCompletion_calls processName)
              (verifyCompletion_line processName) s) as (evs & Ht & _ & Hs).
  rewrite <- verifyCompletion_scripted with (page := page) in Ht, Hs.
  exists evs. split; [assumption|]. intros text Hin.
  assert (Hnot : ~ In (TextContent (status_cell processName))
                     (removelast (verifyCompletion_calls processName))).
  { cbn. intuition discriminate. }
  assert (Hlast : forall evs0 r,
             performs w (trace s ++ [Enter fn_verifyCompletion])
               (verifyCompletion_calls processName) None evs0 r ->
             In (Called (TextContent (status_cell processName)) (Fulfilled text))
               evs0 ->
             r = Normal text).
  { intros evs0 r Hp Hin0.
    exact (performs_last_text w (TextContent (status_cell processName))
             (removelast (verifyCompletion_calls processName))
             _ None evs0 r Hp Hnot text Hin0). }
  destruct (verifyCompletion page processName w s) as [r s']; cbn in Hs |- *.
  inversion Hs as [evs0 v Hp E1 E2|evs0 e Hp E1 E2|evs0 Hp E1 E2];
    subst evs; (destruct Hin as [Hin|Hin]; [discriminate|]).
  - apply in_app_or in Hin. destruct Hin as [Hin|[Hin|[]]]; [|discriminate].
    pose proof (Hlast _ _ Hp Hin) as [= ->]. split; [reflexivity|].
    head_as_app.
    now rewrite !lines_logged_app, (performs_lines_logged _ _ _ _ _ _ Hp).
  - now pose proof (Hlast _ _ Hp Hin).
  - now pose proof (Hlast _ _ Hp Hin).
Qed.



(** The spec's strings, and the case-sensitive near miss. *)
Example near_misses_are_not_completed processName :
  map (verifyCompletion_line processName)
    [Some "Completed"; Some "Running"; Some EmptyString; Some "Incomplete";
     Some "completed"; Some "Failed"; Some "Incident"]
  = [completed_line processName; not_completed_line processName;
     not_completed_line processName; not_completed_line processName;
     not_completed_line processName; not_completed_line processName;
     not_completed_line processName].
Proof. reflexivity. Qed.

(** C9: when the status cell's text content is read as [null], the
    comparison does not throw: the stage logs the non-completion line and
    completes normally. *)
Theorem null_status_is_not_completed page processName w s :
  exists evs,
    trace (snd (verifyCompletion page processName w s)) = trace s ++ evs /\
    (In (Called (TextContent (status_cell processName)) (Fulfilled None)) evs ->
     fst (verifyCompletion page processName w s) = Normal tt /\
     lines_logged evs = [[not_completed_line processName]]).
Proof.
  destruct (verifyCompletion_outcome page processName w s) as (evs & Ht & H).
  exists evs. split; [assumption|]. intros Hin. exact (H None Hin).
Qed.

Lemma null_status_is_not_completed_witness :
  fst (verifyCompletion the_page "Test Process" (cooperative None) initial)
  = Normal tt /\
  lines_logged
    (trace (snd (verifyCompletion the_page "Test Process"
                   (cooperative None) initial)))
  = [[not_completed_line "Test Process"]].
Proof.
  destruct (null_status_is_not_completed the_page "Test Process"
              (cooperative None) initial)
    as (evs & Ht & H).
  change (trace initial ++ evs) with evs in Ht.
  rewrite Ht. apply H.
  rewrite <- Ht. do 7 right. left. reflexivity.
Defined.

(** C7: [login] issues, in this order, the navigation to the base URL
    followed by "/login", the fill of the username field, "Enter" on it,
    the fill of the password field, "Enter" on it, and the wait for the
    navigation; it stops at the first call that does not fulfil, and
    completes normally exactly when none fails. The username and the
    password are passed on unchanged whatever they are (the empty string
    included): no call is skipped or added because of their values. *)
Theorem login_call_sequence cfg page username password w s :
  let steps :=
    [ Goto (CAMUNDA_URL cfg +++ "/login");
      Fill ("input[name=" +++ dquote +++ "username" +++ dquote +++ "]") username;
      Press ("input[name=" +++ dquote +++ "username" +++ dquote +++ "]") "Enter";
      Fill ("input[name=" +++ dquote +++ "password" +++ dquote +++ "]") password;
      Press ("input[name=" +++ dquote +++ "password" +++ dquote +++ "]") "Enter";
      WaitForNavigation None ] in
  exists evs,
    trace (snd (login cfg page username password w s)) = trace s ++ evs /\
    (exists n, calls evs = firstn n steps) /\
    (fst (login cfg page username password w s) = Normal tt <-> smooth evs) /\
    (smooth evs ->
       calls evs = steps /\ lines_logged evs = [["Logged in successfully"]]).
Proof.
  intros steps.
  destruct (invoke_staged cfg (call_login page username password) w s)
    as (evs & Ht & _ & Hs).
  cbn [invoke fn_of script success_line] in Ht, Hs.
  destruct (staged_rejection _ _ _ _ _ _ _ Hs
              (script_never_closes cfg (call_login page username password)))
    as (_ & _ & Hiff).
  destruct (staged_calls Hs) as (n & Hc & Hn).
  exists evs. split; [assumption|]. split; [now exists n|].
  split; [assumption|]. intros Hsm. apply Hiff in Hsm.
  split; [now apply Hn|].
  pose proof (staged_lines_logged Hs) as Hl. rewrite Hsm in Hl.
  now destruct Hl as (evs0 & v & _ & _ & Hl).
Qed.

Lemma login_call_sequence_witness :
  calls (trace (snd (login (load_config (fun _ => None)) the_page
                       EmptyString EmptyString (cooperative None) initial)))
  = [ Goto "/login";
      Fill ("input[name=" +++ dquote +++ "username" +++ dquote +++ "]") EmptyString;
      Press ("input[name=" +++ dquote +++ "username" +++ dquote +++ "]") "Enter";
      Fill ("input[name=" +++ dquote +++ "password" +++ dquote +++ "]") EmptyString;
      Press ("input[name=" +++ dquote +++ "password" +++ dquote +++ "]") "Enter";
      WaitForNavigation None ].
Proof.
  destruct (login_call_sequence (load_config (fun _ => None)) the_page
              EmptyString EmptyString (cooperative None) initial)
    as (evs & Ht & _ & _ & Hfull).
  change (trace initial ++ evs) with evs in Ht.
  rewrite Ht. apply Hfull. rewrite <- Ht. reflexivity.
Defined.

(** Empty credentials go through as they are. *)
Example login_with_empty_credentials :
  let cfg := load_config (fun _ => None) in
  login cfg the_page EmptyString EmptyString (fun _ _ => Fulfilled None) initial
  = (Normal tt,
     {| trace :=
          [ Enter fn_login;
            Called (Goto "/login") (Fulfilled None);
            Called (Fill ("input[name=" +++ dquote +++ "username" +++ dquote +++ "]")
                      EmptyString) (Fulfilled None);
            Called (Press ("input[name=" +++ dquote +++ "username" +++ dquote +++ "]")
                      "Enter") (Fulfilled None);
            Called (Fill ("input[name=" +++ dquote +++ "password" +++ dquote +++ "]")
                      EmptyString) (Fulfilled None);
            Called (Press ("input[name=" +++ dquote +++ "password" +++ dquote +++ "]")
                      "Enter") (Fulfilled None);
            Called (WaitForNavigation None) (Fulfilled None);
            ConsoleLog ["Logged in successfully"] ];
        var_browser := None |}).
Proof. reflexivity. Qed.

(* ================================================================== *)
(** ** Waits *)

(** No call of a script carries a timeout, except the connector wait. *)
Lemma script_timeouts cfg sc c t :
  In c (script cfg sc) -> explicit_timeout c = Some t ->
  fn_of sc = fn_createProcess /\ c = connector_wait.
Proof.
  destruct sc; cbn; intros Hin Ht;
    repeat (destruct Hin as [<-|Hin]; [try discriminate|]);
    try contradiction.
  now split.
Qed.

Lemma firstn_In {A} n (l : list A) x : In x (firstn n l) -> In x l.
Proof.
  revert n. induction l as [|a l IH]; intros [|n]; cbn; try contradiction.
  intros [->|H]; eauto.
Qed.

Lemma staged_calls_in w h f cs line evs r c :
  staged w h f cs line evs r -> In c (calls evs) -> In c cs.
Proof.
  intros Hs Hin. destruct (staged_calls Hs) as (n & Hc & _).
  rewrite Hc in Hin. exact (firstn_In _ _ _ Hin).
Qed.

(** Every call of a run is the launch, the context or page creation, a
    call of the script of one of the stages, or the close. *)
Lemma piped_calls_in w cfg h scs evs r c :
  piped w cfg h scs evs r -> In c (calls evs) ->
  exists sc, In sc scs /\ In c (script cfg sc).
Proof.
  induction 1 as [h|h sc rest evs evs' r Hs Hp IH|h sc rest evs e Hs
                 |h sc rest evs Hs]; intros Hin.
  - contradiction.
  - rewrite calls_app in Hin. apply in_app_or in Hin.
    destruct Hin as [Hin|Hin].
    + exists sc. split; [now left | exact (staged_calls_in _ _ _ _ _ _ _ _ Hs Hin)].
    + destruct (IH Hin) as (sc' & Hsc & Hc). exists sc'. split; [now right|assumption].
  - exists sc. split; [now left | exact (staged_calls_in _ _ _ _ _ _ _ _ Hs Hin)].
  - exists sc. split; [now left | exact (staged_calls_in _ _ _ _ _ _ _ _ Hs Hin)].
Qed.

Lemma booted_calls_in w cfg h evs r c :
  booted w cfg h evs r -> In c (calls evs) ->
  c = NewContext \/ c = NewPage \/
  exists sc, In sc (pipeline cfg the_page) /\ In c (script cfg sc).
Proof.
  assert (Hboot : forall evs0 r0 last,
             performs w h [NewContext; NewPage] last evs0 r0 ->
             In c (calls evs0) -> c = NewContext \/ c = NewPage).
  { intros evs0 r0 last Hp Hin.
    destruct (performs_calls _ _ _ _ _ _ Hp) as (n & Hc & _).
    rewrite Hc in Hin. apply firstn_In in Hin.
    destruct Hin as [<-|[<-|[]]]; auto. }
  intros [evs0 v evs' r' Hp Hq|evs0 e Hp|evs0 Hp] Hin.
  - rewrite calls_app in Hin. apply in_app_or in Hin.
    destruct Hin as [Hin|Hin].
    + destruct (Hboot _ _ _ Hp Hin); auto.
    + right. right. exact (piped_calls_in _ _ _ _ _ _ _ Hq Hin).
  - destruct (Hboot _ _ _ Hp Hin); auto.
  - destruct (Hboot _ _ _ Hp Hin); auto.
Qed.

Lemma ran_calls_in w cfg evs r c :
  ran w cfg evs r -> In c (calls evs) ->
  c = Launch false \/ c = NewContext \/ c = NewPage \/ c = Close \/
  exists sc, In sc (pipeline cfg the_page) /\ In c (script cfg sc).
Proof.
  intros [e Hw|Hw|v evs0 rp Hb Hw|v evs0 e rp Hb Hw|v evs0 Hb] Hin;
    cbn in Hin; rewrite ?calls_app in Hin; cbn in Hin.
  - destruct Hin as [<-|[]]. auto.
  - destruct Hin as [<-|[]]. auto.
  - destruct Hin as [<-|Hin]; [auto|].
    apply in_app_or in Hin. destruct Hin as [Hin|[<-|[]]]; [|auto 6].
    destruct (booted_calls_in _ _ _ _ _ _ Hb Hin) as [->|[->|H]]; auto 6.
  - destruct Hin as [<-|Hin]; [auto|].
    apply in_app_or in Hin. destruct Hin as [Hin|[<-|[]]]; [|auto 6].
    destruct (booted_calls_in _ _ _ _ _ _ Hb Hin) as [->|[->|H]]; auto 6.
  - destruct Hin as [<-|Hin]; [auto|].
    destruct (booted_calls_in _ _ _ _ _ _ Hb Hin) as [->|[->|H]]; auto 6.
Qed.

Lemma staged_replies w h f cs line evs r c rp :
  staged w h f cs line evs r -> In (Called c rp) evs -> exists h', w h' c = rp.
Proof.
  intros [evs0 v Hp|evs0 e Hp|evs0 Hp] [Hin|Hin]; try discriminate;
    try exact (performs_replies _ _ _ _ _ _ Hp _ _ Hin).
  apply in_app_or in Hin. destruct Hin as [Hin|[Hin|[]]]; [|discriminate].
  exact (performs_replies _ _ _ _ _ _ Hp _ _ Hin).
Qed.

(** The events of a script are a call each. *)
Lemma performs_length w h cs last evs r :
  performs w h cs last evs r ->
  length evs <= length cs /\ (forall v, r = Normal v -> length evs = length cs).
Proof.
  induction 1 as [h last|h c cs last v evs r Hw Hp (IH & IHn)|h c cs last e Hw
                 |h c cs last Hw]; cbn.
  - split; auto.
  - split; [lia|]. intros v' Hr. now rewrite (IHn v' Hr).
  - split; [lia | discriminate].
  - split; [lia | discriminate].
Qed.

(** Once the calls before it have fulfilled, the next call of a script is
    issued, and the world settles it. *)
Lemma performs_next w c cs2 :
  forall cs1 h last evs r,
    performs w h (cs1 ++ c :: cs2) last evs r ->
    forall pre rest,
      evs = pre ++ rest -> length pre = length cs1 -> smooth pre ->
      exists rp rest', rest = Called c rp :: rest' /\ w (h ++ pre) c = rp.
Proof.
  induction cs1 as [|c0 cs1 IH]; intros h last evs r Hp pre rest E Hlen Hsm.
  - destruct pre; [|discriminate]. cbn in E. subst rest. rewrite app_nil_r.
    inversion Hp; subst; eauto.
  - destruct pre as [|a pre]; [discriminate|]. cbn in Hlen. injection Hlen as Hlen.
    cbn in Hp, E.
    remember (c0 :: cs1 ++ c :: cs2) as cs eqn:Ecs.
    destruct Hp as [h last|h c1 cs' last v evs' r Hw Hp'|h c1 cs' last e Hw
                   |h c1 cs' last Hw]; try discriminate;
      injection Ecs as -> ->; injection E as <- E.
    + destruct (IH _ _ _ _ Hp' pre rest E Hlen) as (rp & rest' & -> & Hrp).
      * unfold smooth in *. cbn in Hsm. assumption.
      * exists rp, rest'. split; [reflexivity|].
        now rewrite <- app_assoc in Hrp.
    + discriminate Hsm.
    + discriminate Hsm.
Qed.

Lemma app_split_prefix {A} (a t pre rest : list A) :
  a ++ t = pre ++ rest -> length pre <= length a ->
  exists rest0, a = pre ++ rest0 /\ rest = rest0 ++ t.
Proof.
  intros E Hlen. apply app_eq_app in E.
  destruct E as (l & [[-> ->]|[-> ->]]).
  - now exists l.
  - rewrite length_app in Hlen. destruct l; [|cbn in Hlen; lia].
    exists []. rewrite !app_nil_r. split; reflexivity.
Qed.

(** C6: the wait for the connector's URL input in [createProcess] is the
    only call of the script that carries a timeout of its own, and the
    timeout is 5000. Whenever the browser honours timeouts, that wait
    settles: if it does not find the element it rejects, and
    [createProcess] throws the wrapped error instead of waiting forever.
    The other waits pass no timeout; [login]'s wait for the navigation,
    for one, can stay unsettled for ever in a browser that honours
    timeouts. And [createProcess] does pass the bound: for every process
    name and URL, once its first four calls have fulfilled, its next
    call is the wait for "input#rest-url" with timeout 5000; in a
    browser that honours timeouts that call settles, and when it rejects
    nothing more is done and the stage throws the wrapped error. *)
Theorem connector_wait_is_the_only_bounded_wait :
  (forall cfg sc w s,
     exists evs,
       trace (snd (invoke cfg sc w s)) = trace s ++ evs /\
       forall c t,
         In c (calls evs) -> explicit_timeout c = Some t ->
         fn_of sc = fn_createProcess /\
         c = WaitForSelector "input#rest-url" (Some 5000%Z)) /\
  (forall env w c t,
     In c (calls (trace (snd (main env w)))) ->
     explicit_timeout c = Some t ->
     c = WaitForSelector "input#rest-url" (Some 5000%Z)) /\
  (forall w page processName restUrl s,
     honours_timeouts w ->
     exists evs,
       trace (snd (createProcess page processName restUrl w s)) = trace s ++ evs /\
       forall rp,
         In (Called (WaitForSelector "input#rest-url" (Some 5000%Z)) rp) evs ->
         (forall v, rp <> Fulfilled v) ->
         exists err,
           rp = Rejected err /\
           fst (createProcess page processName restUrl w s)
           = Throw (mkError ("Process creation failed: " +++ message err))) /\
  (exists w,
     honours_timeouts w /\
     forall cfg page username password s,
       fst (login cfg page username password w s) = Suspended) /\
  (forall page processName restUrl w s v1 v2 v3 v4 rest,
     trace (snd (createProcess page processName restUrl w s))
     = trace s
       ++ Enter fn_createProcess
          :: Called (Click "button >> text=Create process") (Fulfilled v1)
          :: Called (Fill "input#process-name" processName) (Fulfilled v2)
          :: Called (Click "button >> text=Create") (Fulfilled v3)
          :: Called (Click "button >> text=Add Connector") (Fulfilled v4)
          :: rest ->
     exists rp rest',
       rest = Called (WaitForSelector "input#rest-url" (Some 5000%Z)) rp
              :: rest' /\
       (honours_timeouts w -> rp <> Pending) /\
       (forall err,
          rp = Rejected err ->
          rest' = [] /\
          fst (createProcess page processName restUrl w s)
          = Throw (mkError ("Process creation failed: " +++ message err)))).
Proof.
  repeat apply conj.
  - intros cfg sc w s.
    destruct (invoke_staged cfg sc w s) as (evs & Ht & _ & Hs).
    exists evs. split; [assumption|]. intros c t Hin Hto.
    apply (script_timeouts cfg sc c t); [|assumption].
    exact (staged_calls_in _ _ _ _ _ _ _ _ Hs Hin).
  - intros env w c t Hin Hto.
    destruct (ran_calls_in _ _ _ _ _ (run_ran (load_config env) w) Hin)
      as [->|[->|[->|[->|(sc & _ & Hsc)]]]]; try discriminate.
    now destruct (script_timeouts _ sc c t Hsc Hto).
  - intros w page processName restUrl s Hw.
    destruct (scripted_staged w fn_createProcess
                (createProcess_calls processName restUrl)
                (fun _ => "Process " +++ dquote +++ processName +++ dquote
                          +++ " created successfully") s)
      as (evs & Ht & _ & Hs).
    rewrite <- createProcess_scripted with (page := page) in Ht, Hs.
    exists evs. split; [assumption|]. intros rp Hin Hnot.
    destruct (staged_replies _ _ _ _ _ _ _ _ _ Hs Hin) as (h' & Hrp).
    destruct rp as [v|err|].
    + now destruct (Hnot v).
    + exists err. split; [reflexivity|].
      assert (Hn : never_closes (createProcess_calls processName restUrl))
        by reflexivity.
      destruct (staged_rejection _ _ _ _ _ _ _ Hs Hn) as (Hrej & _).
      exact (Hrej _ _ Hin).
    + exfalso.
      apply (Hw h' (WaitForSelector "input#rest-url" (Some 5000%Z)) 5000%Z);
        [reflexivity | reflexivity | assumption].
  - exists navigation_never_ends. split.
    + intros h c t Hto _. destruct c; cbn in Hto; try discriminate;
        subst; discriminate.
    + reflexivity.
  - intros page processName restUrl w s v1 v2 v3 v4 rest E.
    destruct (scripted_staged w fn_createProcess
                (createProcess_calls processName restUrl)
                (fun _ => "Process " +++ dquote +++ processName +++ dquote
                          +++ " created successfully") s)
      as (evs & Ht & _ & Hs).
    rewrite <- createProcess_scripted with (page := page) in Ht, Hs.
    rewrite E in Ht. apply app_inv_head in Ht. clear E.
    assert (Hn : never_closes (createProcess_calls processName restUrl))
      by reflexivity.
    destruct (staged_rejection _ _ _ _ _ _ _ Hs Hn) as (Hrej & _).
    pose proof (staged_halts Hs Hn) as Hh.
    set (pre := [Called (Click "button >> text=Create process") (Fulfilled v1);
                 Called (Fill "input#process-name" processName) (Fulfilled v2);
                 Called (Click "button >> text=Create") (Fulfilled v3);
                 Called (Click "button >> text=Add Connector") (Fulfilled v4)]).
    assert (Hscript : forall evs0 r0 rest0,
               performs w (trace s ++ [Enter fn_createProcess])
                 (createProcess_calls processName restUrl) None evs0 r0 ->
               evs0 = pre ++ rest0 ->
               exists rp rest',
                 rest0 = Called (WaitForSelector "input#rest-url" (Some 5000%Z)) rp
                         :: rest' /\
                 w ((trace s ++ [Enter fn_createProcess]) ++ pre)
                   (WaitForSelector "input#rest-url" (Some 5000%Z)) = rp).
    { intros evs0 r0 rest0 Hp E0.
      exact (performs_next w (WaitForSelector "input#rest-url" (Some 5000%Z))
               [HandleFill (element "input#rest-url") restUrl;
                Click "button >> text=Save Connector";
                Click "button >> text=Save"]
               [Click "button >> text=Create process";
                Fill "input#process-name" processName;
                Click "button >> text=Create";
                Click "button >> text=Add Connector"]
               _ None evs0 r0 Hp pre rest0 E0 eq_refl eq_refl). }
    assert (Hfound : exists rp rest',
               rest = Called (WaitForSelector "input#rest-url" (Some 5000%Z)) rp
                      :: rest' /\
               (exists h', w h' (WaitForSelector "input#rest-url" (Some 5000%Z))
                           = rp)).
    { destruct (createProcess page processName restUrl w s) as [r s'].
      cbn [fst] in Hs.
      inversion Hs as [evs0 v Hp E1 E2|evs0 e Hp E1 E2|evs0 Hp E1 E2];
        rewrite <- Ht in E1; injection E1 as E1.
      - destruct (performs_length _ _ _ _ _ _ Hp) as (_ & Hlen).
        specialize (Hlen v eq_refl).
        destruct (app_split_prefix evs0 _ pre rest E1) as (rest0 & E0 & ->).
        { rewrite Hlen. cbn. lia. }
        destruct (Hscript _ _ _ Hp E0) as (rp & rest' & -> & Hrp).
        exists rp, (rest' ++ [ConsoleLog
                               ["Process " +++ dquote +++ processName +++ dquote
                                +++ " created successfully"]]).
        split; [reflexivity | eauto].
      - destruct (Hscript _ _ _ Hp E1) as (rp & rest' & -> & Hrp). eauto.
      - destruct (Hscript _ _ _ Hp E1) as (rp & rest' & -> & Hrp). eauto. }
    destruct Hfound as (rp & rest' & -> & h' & Hrp).
    exists rp, rest'. split; [reflexivity|]. split.
    + intros Hw Hpend.
      apply (Hw h' (WaitForSelector "input#rest-url" (Some 5000%Z)) 5000%Z);
        [reflexivity | reflexivity | congruence].
    + intros err ->. split.
      * destruct (fst (createProcess page processName restUrl w s)) as [[]|e'|];
          cbn in Hh.
        -- subst evs. discriminate Hh.
        -- destruct Hh as (pre0 & c & e & Ee & Hsm & _).
           rewrite <- Ht in Ee.
           destruct (locate_in_rest (fun ev => negb (fine ev)) pre0
                       [Called c (Rejected e)] (Enter fn_createProcess :: pre)
                       (Called (WaitForSelector "input#rest-url" (Some 5000%Z))
                          (Rejected err)) rest'
                       (fun a => smooth_In_failure pre0 a Hsm) eq_refl Ee)
             as (mid & _ & Emid).
           destruct mid as [|? [|? ?]]; cbn in Emid; try discriminate.
           now injection Emid.
        -- destruct Hh as (pre0 & c & Ee & Hsm & _).
           rewrite <- Ht in Ee.
           destruct (locate_in_rest (fun ev => negb (fine ev)) pre0
                       [Called c Pending] (Enter fn_createProcess :: pre)
                       (Called (WaitForSelector "input#rest-url" (Some 5000%Z))
                          (Rejected err)) rest'
                       (fun a => smooth_In_failure pre0 a Hsm) eq_refl Ee)
             as (mid & _ & Emid).
           destruct mid as [|? [|? ?]]; cbn in Emid; discriminate.
      * apply (Hrej (WaitForSelector "input#rest-url" (Some 5000%Z)) err).
        rewrite <- Ht. do 5 right. now left.
Qed.

Lemma connector_wait_is_the_only_bounded_wait_witness :
  nth_error
    (calls (trace (snd (createProcess the_page "Invoice" "https://rest.test/x"
                          timeouts_expire initial)))) 4
  = Some (WaitForSelector "input#rest-url" (Some 5000%Z)) /\
  fst (createProcess the_page "Invoice" "https://rest.test/x"
         timeouts_expire initial)
  = Throw (mkError "Process creation failed: Timeout 5000ms exceeded.").
Proof.
  destruct connector_wait_is_the_only_bounded_wait as (_ & _ & _ & _ & Hnew).
  destruct (Hnew the_page "Invoice" "https://rest.test/x" timeouts_expire
              initial None None None None
              [Called (WaitForSelector "input#rest-url" (Some 5000%Z))
                 (Rejected (mkError "Timeout 5000ms exceeded."))]
              eq_refl)
    as (rp & rest' & E & _ & Hthrow).
  injection E as <- <-.
  split; [reflexivity|].
  exact (proj2 (Hthrow _ eq_refl)).
Defined.

(* ================================================================== *)
(** ** The shape of a run's trace *)

Lemma no_enter_In evs ev : invocations evs = [] -> In ev evs -> is_enter ev = false.
Proof.
  intros Hi Hin. destruct ev as [f| | |]; try reflexivity.
  apply In_invocations in Hin. rewrite Hi in Hin. contradiction.
Qed.

Lemma no_close_In evs ev : closes evs = 0 -> In ev evs -> is_close_call ev = false.
Proof.
  intros Hc Hin. destruct ev as [|[] rp| |]; try reflexivity.
  apply In_calls in Hin.
  assert (Hf : In Close (filter is_close (calls evs)))
    by (apply filter_In; auto).
  unfold closes in Hc. apply length_zero_iff_nil in Hc.
  rewrite Hc in Hf. contradiction.
Qed.

Lemma ran_ending w cfg evs r :
  ran w cfg evs r ->
  exists good rest,
    evs = good ++ rest /\
    smooth good /\ closes good = 0 /\ errors_logged good = [] /\
    (exists k, invocations good = firstn k stage_order) /\
    boots_first good /\
    ending good rest r.
Proof.
  intros [e Hw|Hw|v evs0 rp Hb Hw|v evs0 e rp Hb Hw|v evs0 Hb].
  - exists [], [Called (Launch false) (Rejected e);
                ConsoleError ["An error occurred:"; message e]].
    repeat apply conj; try reflexivity.
    + now exists 0.
    + intros [|? ?] f post E; discriminate.
    + now apply ending_no_browser.
  - exists [], [Called (Launch false) Pending].
    repeat apply conj; try reflexivity.
    + now exists 0.
    + intros [|? ?] f post E; discriminate.
    + now apply ending_stuck.
  - pose proof (booted_halts Hb) as Hh. cbn in Hh.
    destruct (booted_invocations Hb) as (k & Hk & Hall).
    exists (Called (Launch false) (Fulfilled v) :: evs0), [Called Close rp].
    repeat apply conj.
    + now rewrite <- app_comm_cons.
    + exact Hh.
    + exact (booted_closes Hb).
    + exact (booted_errors_logged Hb).
    + now exists k.
    + intros [|a pre] f post E; [discriminate|]. injection E as <- E.
      destruct (booted_enter Hb _ _ _ E) as (v2 & v3 & rest & ->).
      now exists v, v2, v3, rest.
    + apply ending_closed; [reflexivity | now apply Hall].
  - pose proof (booted_halts Hb) as (pre & c & e0 & -> & Hsm & Hc & Hlink).
    destruct (booted_invocations Hb) as (k & Hk & _).
    pose proof (booted_closes Hb) as Hcl.
    pose proof (booted_errors_logged Hb) as Hel.
    rewrite invocations_app in Hk. cbn in Hk. rewrite app_nil_r in Hk.
    rewrite closes_app in Hcl. rewrite errors_logged_app in Hel.
    cbn in Hel. rewrite app_nil_r in Hel.
    exists (Called (Launch false) (Fulfilled v) :: pre),
      [Called c (Rejected e0);
       ConsoleError ["An error occurred:"; message e];
       Called Close rp].
    repeat apply conj.
    + cbn. now rewrite <- app_assoc.
    + exact Hsm.
    + change (closes pre = 0). lia.
    + exact Hel.
    + now exists k.
    + intros [|a pre'] f post E; [discriminate|]. injection E as <- E.
      assert (E' : pre ++ [Called c (Rejected e0)]
                   = pre' ++ Enter f :: post ++ [Called c (Rejected e0)]).
      { rewrite E, <- app_assoc. reflexivity. }
      destruct (booted_enter Hb _ _ _ E') as (v2 & v3 & rest & ->).
      now exists v, v2, v3, rest.
    + apply ending_caught; [reflexivity | assumption | exact Hlink].
  - pose proof (booted_halts Hb) as (pre & c & -> & Hsm & Hc).
    destruct (booted_invocations Hb) as (k & Hk & _).
    pose proof (booted_closes Hb) as Hcl.
    pose proof (booted_errors_logged Hb) as Hel.
    rewrite invocations_app in Hk. cbn in Hk. rewrite app_nil_r in Hk.
    rewrite closes_app in Hcl. rewrite errors_logged_app in Hel.
    cbn in Hel. rewrite app_nil_r in Hel.
    exists (Called (Launch false) (Fulfilled v) :: pre), [Called c Pending].
    repeat apply conj.
    + cbn. reflexivity.
    + exact Hsm.
    + change (closes pre = 0). lia.
    + exact Hel.
    + now exists k.
    + intros [|a pre'] f post E; [discriminate|]. injection E as <- E.
      assert (E' : pre ++ [Called c Pending]
                   = pre' ++ Enter f :: post ++ [Called c Pending]).
      { rewrite E, <- app_assoc. reflexivity. }
      destruct (booted_enter Hb _ _ _ E') as (v2 & v3 & rest & ->).
      now exists v, v2, v3, rest.
    + now apply ending_stuck.
Qed.

Lemma ending_no_enter good rest r :
  ending good rest r -> invocations rest = [].
Proof. now intros []. Qed.

Lemma ending_closes good rest r :
  ending good rest r ->
  closes rest <= 1 /\
  (r <> Suspended ->
   closes rest = if session_created (good ++ rest) then 1 else 0).
Proof.
  intros [rp Hs Hi|c e e' rp Hs Hc Hl|c Hc|e Hg];
    unfold session_created; rewrite ?existsb_app;
    fold (session_created good); rewrite ?Hs; unfold closes; cbn;
    rewrite ?Hc; cbn; split; auto; try lia.
  - now intros [].
  - now rewrite Hg.
Qed.

(** Case analysis on an element found in the last events of a run. *)
Ltac in_ending Hend Hmid :=
  let mid := fresh "mid" in
  destruct Hmid as (mid & -> & Hmid);
  destruct Hend;
  destruct mid as [|? [|? [|? [|? ?]]]]; cbn in Hmid;
  try discriminate; injection Hmid as Hmid; subst;
  try discriminate.

(* ================================================================== *)
(** ** The orchestrator *)

(** Whether the browser is closed, and whether the run settles, read off
    the last events of the run. *)
Lemma ending_release good rest r :
  ending good rest r ->
  (session_created (good ++ rest) = false -> closes rest = 0) /\
  (session_created (good ++ rest) = true ->
   (forall c, In (Called c Pending) rest -> c = Close) ->
   closes rest = 1) /\
  (r = Suspended <-> exists c, In (Called c Pending) rest).
Proof.
  assert (Hsc : forall a b, session_created a = true ->
                            session_created (a ++ b) = true).
  { intros a b Ha. unfold session_created in *.
    now rewrite existsb_app, Ha. }
  intros [rp Hs Hi|c e e' rp Hs Hc Hl|c Hc|e Hg].
  - rewrite (Hsc _ _ Hs). repeat apply conj; try discriminate.
    + reflexivity.
    + destruct rp; cbn; intros H; try discriminate. exists Close. now left.
    + intros (c & [H|[]]). now injection H as _ ->.
  - rewrite (Hsc _ _ Hs). repeat apply conj; try discriminate.
    + intros _ _. unfold closes. cbn. now rewrite Hc.
    + destruct rp; cbn; intros H; try discriminate.
      exists Close. right. right. now left.
    + intros (c0 & [H|[H|[H|[]]]]); try discriminate. now injection H as _ ->.
  - repeat apply conj.
    + intros _. unfold closes. cbn. now rewrite Hc.
    + intros _ H. specialize (H c (or_introl eq_refl)). subst c. discriminate.
    + intros _. exists c. now left.
    + reflexivity.
  - subst good. repeat apply conj; try discriminate.
    + reflexivity.
    + intros (c & [H|[H|[]]]); discriminate.
Qed.

(** C1: in every run the stages are entered in the order login,
    navigateToModeler, createProcess, runProcessInstance,
    verifyCompletion, and only after launch, context and page fulfilled
    (and everything before fulfilled); all five are entered when nothing
    fails; once a call has rejected no further stage is entered, and once
    a call stays unsettled nothing happens at all. The browser is closed
    at most once, and never when the launch did not fulfil. When the
    launch fulfilled it is closed exactly once, unless the run is stuck
    in a call before the close that never settles; in particular it is
    closed once whenever a call has rejected. The run fails to settle
    only if some call never settles. The close, when it happens, is the
    last event of the run. *)
Theorem run_sequencing_and_release env w :
  let r := fst (main env w) in
  let T := trace (snd (main env w)) in
  (exists k, invocations T = firstn k stage_order) /\
  (smooth T -> invocations T = stage_order) /\
  (forall pre f post,
     T = pre ++ Enter f :: post ->
     smooth pre /\
     exists v1 v2 v3 rest,
       pre = Called (Launch false) (Fulfilled v1)
             :: Called NewContext (Fulfilled v2)
             :: Called NewPage (Fulfilled v3) :: rest) /\
  (forall pre c e post,
     T = pre ++ Called c (Rejected e) :: post -> invocations post = []) /\
  (forall pre c post, T = pre ++ Called c Pending :: post -> post = []) /\
  closes T <= 1 /\
  (session_created T = false -> closes T = 0) /\
  (session_created T = true ->
   (forall c, In (Called c Pending) T -> c = Close) ->
   closes T = 1) /\
  (forall pre c e post,
     T = pre ++ Called c (Rejected e) :: post ->
     session_created T = true ->
     closes T = 1) /\
  (r = Suspended <-> exists c, In (Called c Pending) T) /\
  (forall pre rp post, T = pre ++ Called Close rp :: post -> post = []).
Proof.
  unfold main.
  destruct (ran_ending _ _ _ _ (run_ran (load_config env) w))
    as (good & rest & ET & Hsm & Hcl & Hel & (k & Hk) & Hboot & Hend).
  destruct (run (load_config env) w initial) as [r s]. cbn in ET, Hend |- *.
  rewrite ET. clear ET.
  destruct (ending_release _ _ _ Hend) as (Hnone & Honce & Hstuck).
  assert (Hpending : forall c, In (Called c Pending) (good ++ rest) ->
                               In (Called c Pending) rest).
  { intros c Hin. apply in_app_or in Hin. destruct Hin as [Hin|Hin]; [|assumption].
    now apply (smooth_In _ _ Hsm) in Hin. }
  repeat apply conj.
  - exists k. now rewrite invocations_app, (ending_no_enter _ _ _ Hend), app_nil_r.
  - intros HT. apply smooth_app in HT. destruct HT as [_ HT].
    rewrite invocations_app, (ending_no_enter _ _ _ Hend), app_nil_r.
    destruct Hend as [rp Hs Hi|c e e' rp Hs Hc Hl|c Hc|e ->];
      [assumption|discriminate..].
  - intros pre f post E. symmetry in E.
    destruct (locate_in_run is_enter good rest pre (Enter f) post) as (mid & -> & _);
      [|reflexivity|assumption|].
    + intros a. apply no_enter_In. exact (ending_no_enter _ _ _ Hend).
    + split; [apply smooth_app in Hsm; tauto|].
      exact (Hboot pre f mid eq_refl).
  - intros pre c e post E. symmetry in E.
    pose proof (locate_in_rest (fun ev => negb (fine ev)) good rest pre
                  (Called c (Rejected e)) post (fun a => smooth_In_failure good a Hsm)
                  eq_refl E) as Hmid.
    in_ending Hend Hmid; reflexivity.
  - intros pre c post E. symmetry in E.
    pose proof (locate_in_rest (fun ev => negb (fine ev)) good rest pre
                  (Called c Pending) post (fun a => smooth_In_failure good a Hsm)
                  eq_refl E) as Hmid.
    in_ending Hend Hmid; reflexivity.
  - rewrite closes_app, Hcl. exact (proj1 (ending_closes _ _ _ Hend)).
  - intros Hs. rewrite closes_app, Hcl. now apply Hnone.
  - intros Hs Hp. rewrite closes_app, Hcl. apply Honce; [assumption|].
    intros c Hin. apply Hp. apply in_or_app. now right.
  - intros pre c e post E Hs. rewrite closes_app, Hcl.
    apply Honce; [assumption|]. intros c0 Hin.
    symmetry in E.
    pose proof (locate_in_rest (fun ev => negb (fine ev)) good rest pre
                  (Called c (Rejected e)) post (fun a => smooth_In_failure good a Hsm)
                  eq_refl E) as Hmid.
    clear Hnone Honce Hstuck.
    destruct Hmid as (mid & -> & Hmid).
    destruct Hend as [rp Hs0 Hi|c1 e1 e' rp Hs0 Hc1 Hl|c1 Hc1|e1 Hg];
      destruct mid as [|? [|? [|? [|? ?]]]]; cbn in Hmid;
      try discriminate; injection Hmid as Hmid; subst;
      try discriminate; cbn in Hin;
      repeat (destruct Hin as [Hin|Hin]; try discriminate; try contradiction);
      try (now injection Hin as <-).
  - intros Hr. destruct (proj1 Hstuck Hr) as (c & Hin).
    exists c. apply in_or_app. now right.
  - intros (c & Hin). apply Hstuck. exists c. now apply Hpending.
  - intros pre rp post E. symmetry in E.
    pose proof (locate_in_rest is_close_call good rest pre
                  (Called Close rp) post
                  (fun a => no_close_In good a Hcl) eq_refl E) as Hmid.
    in_ending Hend Hmid; reflexivity.
Qed.

Lemma run_sequencing_and_release_witness :
  invocations
    (trace (snd (main (fun _ => None) (cooperative (Some "Completed")))))
  = stage_order /\
  closes (trace (snd (main (fun _ => None) (cooperative (Some "Completed")))))
  = 1 /\
  closes (trace (snd (main (fun _ => None) (world_failing is_goto "timeout"))))
  = 1 /\
  closes (trace (snd (main (fun _ => None)
                        (world_failing (fun _ => true) "no browser")))) = 0.
Proof.
  destruct (run_sequencing_and_release (fun _ => None)
              (cooperative (Some "Completed")))
    as (_ & Hall & _ & _ & _ & _ & _ & Honce & _).
  destruct (run_sequencing_and_release (fun _ => None)
              (world_failing is_goto "timeout"))
    as (_ & _ & _ & _ & _ & _ & _ & _ & Hrej & _).
  destruct (run_sequencing_and_release (fun _ => None)
              (world_failing (fun _ => true) "no browser"))
    as (_ & _ & _ & _ & _ & _ & Hnone & _).
  split; [apply Hall; vm_compute; reflexivity|].
  split; [|split].
  - apply Honce; [vm_compute; reflexivity|].
    intros c Hin. vm_compute in Hin.
    repeat (destruct Hin as [Hin|Hin]; [discriminate Hin|]). contradiction.
  - apply (Hrej [Called (Launch false) (Fulfilled None);
                 Called NewContext (Fulfilled None);
                 Called NewPage (Fulfilled None);
                 Enter fn_login]
             (Goto "/login") (mkError "timeout")
             [ConsoleError ["An error occurred:"; "Login failed: timeout"];
              Called Close (Fulfilled None)]);
      vm_compute; reflexivity.
  - apply Hnone. vm_compute. reflexivity.
Defined.

Lemma firstn_NoDup {A} n (l : list A) : NoDup l -> NoDup (firstn n l).
Proof.
  intros H. revert n. induction H as [|a l Hnot Hnd IH]; intros [|n]; cbn;
    try constructor; auto.
  intros Hin. apply Hnot. exact (firstn_In _ _ _ Hin).
Qed.

Lemma stage_order_NoDup : NoDup stage_order.
Proof.
  unfold stage_order.
  repeat (constructor; [cbn; intuition discriminate|]). constructor.
Qed.

(** C5: when a call made by a stage rejects (so that the stage throws
    its prefixed error), all that follows in the run is one
    [console.error] line with that error's message and the close of the
    browser: no stage is entered again and nothing is undone. The error
    is not passed on: how the run completes is decided by the close
    alone, and it completes normally when the close fulfils. *)
Theorem run_catches_stage_error env w pre fs f c err post :
  trace (snd (main env w)) = pre ++ Called c (Rejected err) :: post ->
  invocations pre = fs ++ [f] ->
  is_close c = false ->
  exists rp,
    post = [ConsoleError ["An error occurred:"; prefix f +++ message err];
            Called Close rp] /\
    errors_logged (trace (snd (main env w)))
    = [["An error occurred:"; prefix f +++ message err]] /\
    fst (main env w)
    = match rp with
      | Fulfilled _ => Normal tt
      | Rejected e => Throw e
      | Pending => Suspended
      end /\
    NoDup (invocations (trace (snd (main env w)))).
Proof.
  unfold main.
  destruct (ran_ending _ _ _ _ (run_ran (load_config env) w))
    as (good & rest & ET & Hsm & Hcl & Hel & (k & Hk) & Hboot & Hend).
  destruct (run (load_config env) w initial) as [r s]. cbn in ET, Hend |- *.
  rewrite ET. clear ET. intros E Hpre Hc.
  assert (Hnd : NoDup (invocations (good ++ rest))).
  { rewrite invocations_app, (ending_no_enter _ _ _ Hend), app_nil_r, Hk.
    apply firstn_NoDup, stage_order_NoDup. }
  symmetry in E.
  pose proof (locate_in_rest (fun ev => negb (fine ev)) good rest pre
                (Called c (Rejected err)) post
                (fun a => smooth_In_failure good a Hsm) eq_refl E) as Hmid.
  rewrite errors_logged_app, Hel.
  destruct Hmid as (mid & -> & Hmid).
  destruct Hend as [rp Hs Hi|c0 e e' rp Hs Hc0 Hl|c0 Hc0|e Hg];
    destruct mid as [|? [|? [|? [|? ?]]]]; cbn in Hmid;
    try discriminate; injection Hmid as Hmid; subst;
    try discriminate.
  - rewrite app_nil_r in Hpre.
    destruct Hl as [[Hi _]|(fs' & f' & Hi & ->)]; rewrite Hi in Hpre.
    + now destruct fs.
    + apply app_inj_tail in Hpre. destruct Hpre as [_ ->].
      exists rp. repeat apply conj; auto.
  - now destruct fs.
Qed.

Lemma run_catches_stage_error_witness :
  exists rp,
    [ConsoleError ["An error occurred:"; "Login failed: timeout"];
     Called Close (Fulfilled None)]
    = [ConsoleError ["An error occurred:"; prefix fn_login +++ "timeout"];
       Called Close rp] /\
    errors_logged (trace (snd (main (fun _ => None) (world_failing is_goto "timeout"))))
    = [["An error occurred:"; prefix fn_login +++ "timeout"]] /\
    fst (main (fun _ => None) (world_failing is_goto "timeout"))
    = match rp with
      | Fulfilled _ => Normal tt
      | Rejected e => Throw e
      | Pending => Suspended
      end /\
    NoDup (invocations
             (trace (snd (main (fun _ => None) (world_failing is_goto "timeout"))))).
Proof.
  apply (run_catches_stage_error (fun _ => None) (world_failing is_goto "timeout")
           [Called (Launch false) (Fulfilled None);
            Called NewContext (Fulfilled None);
            Called NewPage (Fulfilled None);
            Enter fn_login]
           [] fn_login (Goto "/login") (mkError "timeout")
           [ConsoleError ["An error occurred:"; "Login failed: timeout"];
            Called Close (Fulfilled None)]);
    reflexivity.
Defined.

(** C10: when the close of the browser rejects, [run] completes by
    throwing that error (its promise rejects), and nothing follows the
    close: neither the [catch] clause nor anything else handles it. *)
Theorem close_failure_propagates env w pre err post :
  trace (snd (main env w)) = pre ++ Called Close (Rejected err) :: post ->
  fst (main env w) = Throw err /\ post = [].
Proof.
  unfold main.
  destruct (ran_ending _ _ _ _ (run_ran (load_config env) w))
    as (good & rest & ET & Hsm & Hcl & Hel & (k & Hk) & Hboot & Hend).
  destruct (run (load_config env) w initial) as [r s]. cbn in ET, Hend |- *.
  rewrite ET. clear ET. intros E. symmetry in E.
  pose proof (locate_in_rest (fun ev => negb (fine ev)) good rest pre
                (Called Close (Rejected err)) post
                (fun a => smooth_In_failure good a Hsm) eq_refl E) as Hmid.
  in_ending Hend Hmid; auto.
Qed.

Lemma close_failure_propagates_witness :
  fst (main (fun _ => None) (world_failing is_close "Target closed"))
  = Throw (mkError "Target closed")
  /\ @nil Event = [].
Proof.
  apply (close_failure_propagates (fun _ => None)
           (world_failing is_close "Target closed")
           (removelast
              (trace (snd (main (fun _ => None)
                             (world_failing is_close "Target closed")))))).
  reflexivity.
Defined.

(* ================================================================== *)
(** ** The end-to-end scenario *)

Example end_to_end_completed :
  let result := main (fun _ => None) (cooperative (Some "Completed")) in
  fst result = Normal tt /\
  invocations (trace (snd result)) = stage_order /\
  lines_logged (trace (snd result))
  = [ ["Logged in successfully"];
      ["Navigated to Web Modeler"];
      ["Process " +++ dquote +++ "Test Process" +++ dquote
       +++ " created successfully"];
      ["Process instance of " +++ dquote +++ "Test Process" +++ dquote
       +++ " started successfully"];
      ["Process instance of " +++ dquote +++ "Test Process" +++ dquote
       +++ " completed successfully"] ] /\
  errors_logged (trace (snd result)) = [] /\
  closes (trace (snd result)) = 1 /\
  last (trace (snd result)) (Enter fn_login) = Called Close (Fulfilled None).
Proof. repeat apply conj; reflexivity. Qed.

Example end_to_end_launch_fails :
  main (fun _ => None) (fun _ _ => Rejected (mkError "no browser"))
  = (Normal tt,
     {| trace := [ Called (Launch false) (Rejected (mkError "no browser"));
                   ConsoleError ["An error occurred:"; "no browser"] ];
        var_browser := None |}).
Proof. reflexivity. Qed.

Example end_to_end_null_status :
  let result := main (fun _ => None) (cooperative None) in
  fst result = Normal tt /\
  last (lines_logged (trace (snd result))) []
  = ["Process instance of " +++ dquote +++ "Test Process" +++ dquote
     +++ " did not complete"].
Proof. split; reflexivity. Qed.

(* ================================================================== *)
(** * Further properties of the script *)

(** ** The other stages, call by call *)

(** What every stage does with its script. *)
Lemma stage_sequence cfg sc w s :
  exists evs,
    trace (snd (invoke cfg sc w s)) = trace s ++ evs /\
    (exists n, calls evs = firstn n (script cfg sc)) /\
    (fst (invoke cfg sc w s) = Normal tt <-> smooth evs) /\
    (smooth evs ->
       calls evs = script cfg sc /\
       exists v, lines_logged evs = [[success_line sc v]]).
Proof.
  destruct (invoke_staged cfg sc w s) as (evs & Ht & _ & Hs).
  destruct (staged_rejection _ _ _ _ _ _ _ Hs (script_never_closes cfg sc))
    as (_ & _ & Hiff).
  destruct (staged_calls Hs) as (n & Hc & Hn).
  exists evs. split; [assumption|]. split; [now exists n|].
  split; [assumption|]. intros Hsm. apply Hiff in Hsm.
  split; [now apply Hn|].
  pose proof (staged_lines_logged Hs) as Hl. rewrite Hsm in Hl.
  destruct Hl as (evs0 & v & _ & _ & Hl). now exists v.
Qed.

(** A stage does nothing after a call that did not fulfil, and logs
    nothing unless it completes normally. *)
Lemma stage_stops cfg sc w s :
  exists evs,
    trace (snd (invoke cfg sc w s)) = trace s ++ evs /\
    (exists n, calls evs = firstn n (script cfg sc)) /\
    (fst (invoke cfg sc w s) = Normal tt <-> smooth evs) /\
    (smooth evs ->
       calls evs = script cfg sc /\
       exists v, lines_logged evs = [[success_line sc v]]) /\
    (forall pre c rp post,
       evs = pre ++ Called c rp :: post ->
       (forall v, rp <> Fulfilled v) ->
       post = []) /\
    (fst (invoke cfg sc w s) <> Normal tt -> lines_logged evs = []).
Proof.
  destruct (stage_sequence cfg sc w s) as (evs & Ht & Hn & Hiff & Hfull).
  destruct (invoke_staged cfg sc w s) as (evs' & Ht' & _ & Hs).
  rewrite Ht in Ht'. apply app_inv_head in Ht'. subst evs'.
  exists evs. repeat apply conj; try assumption; try apply Hiff.
  - intros pre c rp post E Hrp.
    assert (Hbad : negb (fine (Called c rp)) = true).
    { destruct rp as [v| |]; [now destruct (Hrp v)|reflexivity..]. }
    pose proof (staged_halts Hs (script_never_closes cfg sc)) as Hh.
    destruct (fst (invoke cfg sc w s)) as [[]|e'|]; cbn in Hh.
    + assert (Hin : In (Called c rp) evs)
        by (rewrite E; apply in_or_app; right; now left).
      apply (smooth_In _ _ Hh) in Hin. rewrite Hin in Hbad. discriminate.
    + destruct Hh as (pre0 & c0 & e & E0 & Hsm & _). rewrite E in E0.
      destruct (locate_in_rest (fun ev => negb (fine ev)) pre0
                  [Called c0 (Rejected e)] pre (Called c rp) post
                  (fun a => smooth_In_failure pre0 a Hsm) Hbad E0)
        as (mid & _ & Emid).
      destruct mid as [|? [|? ?]]; cbn in Emid; try discriminate.
      now injection Emid.
    + destruct Hh as (pre0 & c0 & E0 & Hsm & _). rewrite E in E0.
      destruct (locate_in_rest (fun ev => negb (fine ev)) pre0
                  [Called c0 Pending] pre (Called c rp) post
                  (fun a => smooth_In_failure pre0 a Hsm) Hbad E0)
        as (mid & _ & Emid).
      destruct mid as [|? [|? ?]]; cbn in Emid; try discriminate.
      now injection Emid.
  - intros Hr. pose proof (staged_lines_logged Hs) as Hl.
    destruct (fst (invoke cfg sc w s)) as [[]|e'|]; [now destruct Hr | assumption..].
Qed.

(** X1: [navigateToModeler] loads the base URL and then waits, with no
    timeout of its own, for the "Create process" button. It stops at the
    first call that does not fulfil: nothing, no call and no log line,
    follows such a call. It completes normally exactly when no call
    fails, and it logs its line then and in no other case. *)
Theorem navigateToModeler_call_sequence cfg page w s :
  let steps :=
    [ Goto (CAMUNDA_URL cfg);
      WaitForSelector "button >> text=Create process" None ] in
  exists evs,
    trace (snd (navigateToModeler cfg page w s)) = trace s ++ evs /\
    (exists n, calls evs = firstn n steps) /\
    (fst (navigateToModeler cfg page w s) = Normal tt <-> smooth evs) /\
    (smooth evs ->
       calls evs = steps /\ lines_logged evs = [["Navigated to Web Modeler"]]) /\
    (forall pre c rp post,
       evs = pre ++ Called c rp :: post ->
       (forall v, rp <> Fulfilled v) ->
       post = []) /\
    (fst (navigateToModeler cfg page w s) <> Normal tt -> lines_logged evs = []).
Proof.
  intros steps.
  destruct (stage_stops cfg (call_navigateToModeler page) w s)
    as (evs & Ht & Hn & Hiff & Hfull & Hstop & Hquiet).
  exists evs. repeat apply conj; try assumption.
  - apply Hiff.
  - apply Hiff.
  - intros Hsm. destruct (Hfull Hsm) as (Hc & v & Hl). now split.
Qed.

(** X2: [createProcess] clicks "Create process", fills the process name,
    clicks "Create" and "Add Connector", waits for the connector's URL
    input, fills the URL into the element that wait returned, then
    clicks "Save Connector" and "Save", in this order. It stops at the
    first call that does not fulfil: nothing, no call and no log line,
    follows such a call. It completes normally exactly when no call
    fails, and it logs its line, which quotes the process name, then and
    in no other case. *)
Theorem createProcess_call_sequence page processName restUrl w s :
  let steps :=
    [ Click "button >> text=Create process";
      Fill "input#process-name" processName;
      Click "button >> text=Create";
      Click "button >> text=Add Connector";
      WaitForSelector "input#rest-url" (Some 5000%Z);
      HandleFill (element "input#rest-url") restUrl;
      Click "button >> text=Save Connector";
      Click "button >> text=Save" ] in
  exists evs,
    trace (snd (createProcess page processName restUrl w s)) = trace s ++ evs /\
    (exists n, calls evs = firstn n steps) /\
    (fst (createProcess page processName restUrl w s) = Normal tt
     <-> smooth evs) /\
    (smooth evs ->
       calls evs = steps /\
       lines_logged evs
       = [["Process " +++ dquote +++ processName +++ dquote
           +++ " created successfully"]]) /\
    (forall pre c rp post,
       evs = pre ++ Called c rp :: post ->
       (forall v, rp <> Fulfilled v) ->
       post = []) /\
    (fst (createProcess page processName restUrl w s) <> Normal tt -> lines_logged evs = []).
Proof.
  intros steps.
  destruct (stage_stops (load_config (fun _ => None)) (call_createProcess page processName restUrl) w s)
    as (evs & Ht & Hn & Hiff & Hfull & Hstop & Hquiet).
  exists evs. repeat apply conj; try assumption.
  - apply Hiff.
  - apply Hiff.
  - intros Hsm. destruct (Hfull Hsm) as (Hc & v & Hl). now split.
Qed.

(** X3: [runProcessInstance] goes to the base URL followed by "/run",
    clicks "Run instance" and the Operate sidebar toggle, waits for the
    Operate link and clicks the element the wait returned, waits for the
    process-name dropdown and selects the process name in the element
    that wait returned, then clicks "Start instance"; neither wait
    carries a timeout. It stops at the first call that does not fulfil:
    nothing, no call and no log line, follows such a call. It completes
    normally exactly when no call fails, and it logs its line then and
    in no other case. *)
Theorem runProcessInstance_call_sequence cfg page processName w s :
  let steps :=
    [ Goto (CAMUNDA_URL cfg +++ "/run");
      Click "button >> text=Run instance";
      Click "button#operate-sidebar-toggle";
      WaitForSelector "a#operate-link" None;
      HandleClick (element "a#operate-link");
      WaitForSelector "select#process-name" None;
      HandleSelectOption (element "select#process-name") processName;
      Click "button >> text=Start instance" ] in
  exists evs,
    trace (snd (runProcessInstance cfg page processName w s)) = trace s ++ evs /\
    (exists n, calls evs = firstn n steps) /\
    (fst (runProcessInstance cfg page processName w s) = Normal tt
     <-> smooth evs) /\
    (smooth evs ->
       calls evs = steps /\
       lines_logged evs
       = [["Process instance of " +++ dquote +++ processName +++ dquote
           +++ " started successfully"]]) /\
    (forall pre c rp post,
       evs = pre ++ Called c rp :: post ->
       (forall v, rp <> Fulfilled v) ->
       post = []) /\
    (fst (runProcessInstance cfg page processName w s) <> Normal tt -> lines_logged evs = []).
Proof.
  intros steps.
  destruct (stage_stops cfg (call_runProcessInstance page processName) w s)
    as (evs & Ht & Hn & Hiff & Hfull & Hstop & Hquiet).
  exists evs. repeat apply conj; try assumption.
  - apply Hiff.
  - apply Hiff.
  - intros Hsm. destruct (Hfull Hsm) as (Hc & v & Hl). now split.
Qed.

(** X4: [verifyCompletion] clicks the Operate sidebar toggle, waits for
    the Operate link and clicks it, fills the search box with the process
    name, clicks "Search", waits for the status cell and reads its text;
    the cell waited for and the cell read are the same, the
    "completion-status" cell inside the row whose id is "process-row-"
    followed by the process name. When no call fails exactly one line is
    logged, the success line or the non-completion line. *)
Theorem verifyCompletion_call_sequence page processName w s :
  let cell :=
    ("tr[id=" +++ dquote +++ "process-row-" +++ processName +++ dquote +++ "]")
    +++ " td[id=" +++ dquote +++ "completion-status" +++ dquote +++ "]" in
  let steps :=
    [ Click "button#operate-sidebar-toggle";
      WaitForSelector "a#operate-link" None;
      HandleClick (element "a#operate-link");
      Fill "input#process-search" processName;
      Click "button >> text=Search";
      WaitForSelector cell None;
      TextContent cell ] in
  exists evs,
    trace (snd (verifyCompletion page processName w s)) = trace s ++ evs /\
    (exists n, calls evs = firstn n steps) /\
    (fst (verifyCompletion page processName w s) = Normal tt <-> smooth evs) /\
    (smooth evs ->
       calls evs = steps /\
       (lines_logged evs = [[completed_line processName]] \/
        lines_logged evs = [[not_completed_line processName]])).
Proof.
  intros cell steps.
  destruct (stage_sequence (load_config (fun _ => None))
              (call_verifyCompletion page processName) w s)
    as (evs & Ht & Hn & Hiff & Hfull).
  exists evs. repeat apply conj; try assumption.
  - apply Hiff.
  - apply Hiff.
  - intros Hsm. destruct (Hfull Hsm) as (Hc & v & Hl). split; [assumption|].
    rewrite Hl. cbn [success_line]. unfold verifyCompletion_line.
    destruct (strict_eq v "Completed"); auto.
Qed.

(** ** What every stage keeps to *)

(** X5: a stage logs its line exactly when it completes normally, as the
    last thing it does, and it logs nothing else: no success line is ever
    written by a stage that throws or never completes. *)
Theorem stage_logs_only_on_success cfg sc w s :
  exists evs,
    trace (snd (invoke cfg sc w s)) = trace s ++ evs /\
    (fst (invoke cfg sc w s) = Normal tt ->
       exists pre v,
         evs = pre ++ [ConsoleLog [success_line sc v]] /\
         lines_logged pre = []) /\
    (fst (invoke cfg sc w s) <> Normal tt -> lines_logged evs = []) /\
    errors_logged evs = [].
Proof.
  destruct (invoke_staged cfg sc w s) as (evs & Ht & _ & Hs).
  exists evs. split; [assumption|].
  pose proof (staged_errors_logged Hs) as Hel.
  destruct (invoke cfg sc w s) as [r s']. cbn in Hs |- *.
  inversion Hs as [evs0 v Hp E1 E2|evs0 e Hp E1 E2|evs0 Hp E1 E2]; subst.
  - repeat apply conj; [|now intros []|assumption].
    intros _. exists (Enter (fn_of sc) :: evs0), v. split; [reflexivity|].
    exact (performs_lines_logged _ _ _ _ _ _ Hp).
  - repeat apply conj; [discriminate| |assumption].
    intros _. exact (performs_lines_logged _ _ _ _ _ _ Hp).
  - repeat apply conj; [discriminate| |assumption].
    intros _. exact (performs_lines_logged _ _ _ _ _ _ Hp).
Qed.

Lemma script_no_session cfg sc c :
  In c (script cfg sc) -> manages_session c = false.
Proof.
  destruct sc; cbn; intros Hin;
    repeat (destruct Hin as [<-|Hin]; [reflexivity|]); contradiction.
Qed.

(** X6: no stage launches or closes the browser or creates a context or
    a page, and no stage touches the variable [browser] of [run]: the
    session is set up and released by [run] alone. *)
Theorem stages_leave_the_session_alone cfg sc w s :
  exists evs,
    trace (snd (invoke cfg sc w s)) = trace s ++ evs /\
    var_browser (snd (invoke cfg sc w s)) = var_browser s /\
    forall c, In c (calls evs) -> manages_session c = false.
Proof.
  destruct (invoke_staged cfg sc w s) as (evs & Ht & Hb & Hs).
  exists evs. repeat apply conj; try assumption.
  intros c Hin. apply (script_no_session cfg sc).
  exact (staged_calls_in _ _ _ _ _ _ _ _ Hs Hin).
Qed.

(** ** Configuration *)

(** X7: whatever the environment, the resolved process name and REST URL
    are never empty, whereas base URL, username and password may be; a
    variable set to a non-empty string resolves to that string. *)
Theorem resolved_configuration (env : Env) :
  PROCESS_NAME (load_config env) <> EmptyString /\
  REST_URL (load_config env) <> EmptyString /\
  (forall v, v <> EmptyString ->
     (env "CAMUNDA_URL" = Some v -> CAMUNDA_URL (load_config env) = v) /\
     (env "USERNAME" = Some v -> USERNAME (load_config env) = v) /\
     (env "PASSWORD" = Some v -> PASSWORD (load_config env) = v) /\
     (env "PROCESS_NAME" = Some v -> PROCESS_NAME (load_config env) = v) /\
     (env "REST_URL" = Some v -> REST_URL (load_config env) = v)).
Proof.
  assert (Hne : forall v d, d <> EmptyString -> or_default v d <> EmptyString).
  { intros [[|a v]|] d Hd; cbn; auto. discriminate. }
  assert (Hset : forall v d, v <> EmptyString -> or_default (Some v) d = v).
  { intros [|a v] d Hv; [contradiction|reflexivity]. }
  unfold load_config. cbn [CAMUNDA_URL USERNAME PASSWORD PROCESS_NAME REST_URL].
  repeat apply conj; try (apply Hne; discriminate).
  intros v Hv. repeat apply conj; intros ->; now apply Hset.
Qed.

Lemma resolved_configuration_witness :
  CAMUNDA_URL (load_config (fun k => if String.eqb k "CAMUNDA_URL"
                                     then Some "https://camunda.test"
                                     else None))
  = "https://camunda.test".
Proof.
  destruct (resolved_configuration
              (fun k => if String.eqb k "CAMUNDA_URL"
                        then Some "https://camunda.test" else None))
    as (_ & _ & H).
  destruct (H "https://camunda.test") as (H1 & _); [discriminate|].
  apply H1. reflexivity.
Defined.

(** ** More on the orchestrator *)

(** The trace of a run as fine events followed by its ending. *)
Ltac run_shape env w :=
  let good := fresh "good" in
  let rest := fresh "rest" in
  let ET := fresh "ET" in
  let r := fresh "r" in
  let s := fresh "s" in
  unfold main;
  destruct (ran_ending _ _ _ _ (run_ran (load_config env) w))
    as (good & rest & ET & ?Hsm & ?Hcl & ?Hel & (?k & ?Hk) & ?Hboot & ?Hend);
  destruct (run (load_config env) w initial) as [r s];
  cbn [fst snd] in *; rewrite ET; clear ET.

(** X8: when the launch, the context or the page cannot be created (the
    first call to reject comes before any stage is entered), no stage
    runs and [run] logs the error's own message, with no stage prefix.
    If it was the launch, the browser is never closed and [run] completes
    normally; otherwise the browser is closed once and [run] completes as
    the close settles. *)
Theorem bootstrap_failure env w pre c err post :
  trace (snd (main env w)) = pre ++ Called c (Rejected err) :: post ->
  smooth pre ->
  invocations pre = [] ->
  errors_logged (trace (snd (main env w)))
  = [["An error occurred:"; message err]] /\
  invocations (trace (snd (main env w))) = [] /\
  ((pre = [] /\ c = Launch false /\
    post = [ConsoleError ["An error occurred:"; message err]] /\
    closes (trace (snd (main env w))) = 0 /\
    fst (main env w) = Normal tt) \/
   (pre <> [] /\
    closes (trace (snd (main env w))) = 1 /\
    exists rp,
      post = [ConsoleError ["An error occurred:"; message err];
              Called Close rp] /\
      fst (main env w)
      = match rp with
        | Fulfilled _ => Normal tt
        | Rejected e => Throw e
        | Pending => Suspended
        end)).
Proof.
  run_shape env w. intros E Hpre Hinv. symmetry in E.
  pose proof (locate_in_rest (fun ev => negb (fine ev)) good rest pre
                (Called c (Rejected err)) post
                (fun a => smooth_In_failure good a Hsm) eq_refl E) as Hmid.
  destruct Hmid as (mid & -> & Hmid).
  apply smooth_app in Hpre. destruct Hpre as [_ Hpre].
  rewrite invocations_app in Hinv. apply app_eq_nil in Hinv.
  destruct Hinv as [Hinv _].
  rewrite errors_logged_app, invocations_app, closes_app, Hel, Hinv, Hcl.
  destruct Hend as [rp Hs Hi|c0 e e' rp Hs Hc0 Hl|c0 Hc0|e Hg];
    destruct mid as [|? [|? [|? [|? ?]]]]; cbn in Hmid;
    try discriminate; injection Hmid as Hmid; subst;
    try discriminate.
  - rewrite Hinv in Hi. discriminate.
  - destruct Hl as [[_ ->]|(fs & f & Hi & _)];
      [|rewrite Hinv in Hi; now destruct fs].
    repeat apply conj; try reflexivity. right. repeat apply conj.
    + destruct good; discriminate.
    + unfold closes. cbn. rewrite Hc0. reflexivity.
    + now exists rp.
  - repeat apply conj; try reflexivity. left. repeat apply conj; reflexivity.
Qed.

Lemma bootstrap_failure_witness :
  errors_logged
    (trace (snd (main (fun _ => None)
                   (world_failing (fun c => negb (is_launch c)) "no context"))))
  = [["An error occurred:"; "no context"]] /\
  closes
    (trace (snd (main (fun _ => None)
                   (world_failing (fun c => negb (is_launch c)) "no context"))))
  = 1.
Proof.
  destruct (bootstrap_failure (fun _ => None)
              (world_failing (fun c => negb (is_launch c)) "no context")
              [Called (Launch false) (Fulfilled None)]
              NewContext (mkError "no context")
              [ConsoleError ["An error occurred:"; "no context"];
               Called Close (Rejected (mkError "no context"))]
              eq_refl eq_refl eq_refl)
    as (Hel & _ & [(Hnil & _)|(_ & Hcl & _)]).
  - split; [exact Hel | discriminate Hnil].
  - split; [exact Hel | exact Hcl].
Defined.

(** X9: when a call other than the close never settles, nothing happens
    after it: [run] never completes, no diagnostic is logged, and the
    browser, if it was launched, is never closed. *)
Theorem unsettled_call_leaves_browser_open env w pre c post :
  trace (snd (main env w)) = pre ++ Called c Pending :: post ->
  is_close c = false ->
  post = [] /\
  fst (main env w) = Suspended /\
  closes (trace (snd (main env w))) = 0 /\
  errors_logged (trace (snd (main env w))) = [].
Proof.
  run_shape env w. intros E Hc. symmetry in E.
  pose proof (locate_in_rest (fun ev => negb (fine ev)) good rest pre
                (Called c Pending) post
                (fun a => smooth_In_failure good a Hsm) eq_refl E) as Hmid.
  destruct Hmid as (mid & -> & Hmid).
  rewrite errors_logged_app, closes_app, Hel, Hcl.
  destruct Hend as [rp Hs Hi|c0 e e' rp Hs Hc0 Hl|c0 Hc0|e Hg];
    destruct mid as [|? [|? [|? [|? ?]]]]; cbn in Hmid;
    try discriminate; injection Hmid as Hmid; subst;
    try discriminate.
  repeat apply conj; try reflexivity.
  unfold closes. cbn. now rewrite Hc.
Qed.

Lemma unsettled_call_leaves_browser_open_witness :
  fst (main (fun _ => None) navigation_never_ends) = Suspended /\
  closes (trace (snd (main (fun _ => None) navigation_never_ends))) = 0.
Proof.
  destruct (unsettled_call_leaves_browser_open (fun _ => None)
              navigation_never_ends
              (removelast (trace (snd (main (fun _ => None)
                                         navigation_never_ends))))
              (WaitForNavigation None) [] eq_refl eq_refl)
    as (_ & Hr & Hcl & _).
  split; [exact Hr | exact Hcl].
Defined.

(** X10: [run] writes at most one diagnostic, and it writes one exactly
    when a call other than the close rejected; a close that rejects is
    never logged. *)
Theorem diagnostic_iff_rejection env w :
  length (errors_logged (trace (snd (main env w)))) <= 1 /\
  (forall c err,
     In (Called c (Rejected err)) (trace (snd (main env w))) ->
     is_close c = false ->
     exists m,
       errors_logged (trace (snd (main env w)))
       = [["An error occurred:"; m]]) /\
  (errors_logged (trace (snd (main env w))) <> [] ->
   exists c err,
     In (Called c (Rejected err)) (trace (snd (main env w))) /\
     is_close c = false).
Proof.
  run_shape env w. rewrite errors_logged_app, Hel. repeat apply conj.
  - destruct Hend; cbn; lia.
  - intros c err Hin Hc. apply in_app_or in Hin. destruct Hin as [Hin|Hin].
    + now apply (smooth_In _ _ Hsm) in Hin.
    + destruct Hend as [rp Hs Hi|c0 e e' rp Hs Hc0 Hl|c0 Hc0|e Hg]; cbn in Hin.
      * destruct Hin as [[= <- _]|[]]. discriminate.
      * now exists (message e').
      * destruct Hin as [[=]|[]].
      * now exists (message e).
  - intros Hne.
    destruct Hend as [rp Hs Hi|c0 e e' rp Hs Hc0 Hl|c0 Hc0|e Hg];
      cbn in Hne; try contradiction.
    + exists c0, e. split; [|assumption].
      apply in_or_app. right. now left.
    + exists (Launch false), e. split; [|reflexivity].
      apply in_or_app. right. now left.
Qed.

Lemma script_no_launch cfg sc c : In c (script cfg sc) -> is_launch c = false.
Proof.
  intros Hin. pose proof (script_no_session cfg sc c Hin). now destruct c.
Qed.

(** X11: every run starts by launching the browser with [headless: false],
    and launches it only once. *)
Theorem launch_is_first_and_only env w :
  exists rp rest,
    trace (snd (main env w)) = Called (Launch false) rp :: rest /\
    forall c, In c (calls rest) -> is_launch c = false.
Proof.
  unfold main.
  assert (Hboot : forall h evs r c,
             booted w (load_config env) h evs r ->
             In c (calls evs) -> is_launch c = false).
  { intros h evs r c Hb Hin.
    destruct (booted_calls_in _ _ _ _ _ _ Hb Hin) as [->|[->|(sc & _ & Hsc)]];
      try reflexivity.
    exact (script_no_launch _ _ _ Hsc). }
  destruct (run_ran (load_config env) w)
    as [e Hw|Hw|v evs0 rp Hb Hw|v evs0 e rp Hb Hw|v evs0 Hb].
  - eexists _, _. split; [reflexivity|]. cbn. tauto.
  - eexists _, _. split; [reflexivity|]. cbn. tauto.
  - eexists _, _. split; [reflexivity|]. intros c Hin.
    rewrite calls_app in Hin. apply in_app_or in Hin.
    destruct Hin as [Hin|[<-|[]]]; [eauto | reflexivity].
  - eexists _, _. split; [reflexivity|]. intros c Hin.
    rewrite calls_app in Hin. apply in_app_or in Hin.
    destruct Hin as [Hin|[<-|[]]]; [eauto | reflexivity].
  - eexists _, _. split; [reflexivity|]. eauto.
Qed.

(** X12: how [run] completes says nothing about the stages: its promise
    fulfils exactly when the launch rejected or the close fulfilled. *)
Theorem run_fulfils_iff env w :
  fst (main env w) = Normal tt <->
  (exists e post,
     trace (snd (main env w)) = Called (Launch false) (Rejected e) :: post) \/
  (exists pre v,
     trace (snd (main env w)) = pre ++ [Called Close (Fulfilled v)]).
Proof.
  run_shape env w. split.
  - destruct Hend as [rp Hs Hi|c0 e e' rp Hs Hc0 Hl|c0 Hc0|e Hg].
    + destruct rp as [v| |]; try discriminate. intros _. right. now exists good, v.
    + destruct rp as [v| |]; try discriminate. intros _. right.
      eexists (good ++ [_; _]), v. now rewrite <- app_assoc.
    + discriminate.
    + intros _. left. subst good. now eexists _, _.
  - intros [(e & post & E)|(pre & v & E)].
    + destruct good as [|a good'].
      * destruct Hend as [rp Hs Hi|c0 e0 e' rp Hs Hc0 Hl|c0 Hc0|e0 Hg];
          try discriminate; reflexivity.
      * injection E as -> _. discriminate Hsm.
    + destruct Hend as [rp Hs Hi|c0 e e' rp Hs Hc0 Hl|c0 Hc0|e Hg].
      * apply app_inj_tail in E. destruct E as [_ [= ->]]. reflexivity.
      * change [Called c0 (Rejected e);
                ConsoleError ["An error occurred:"; message e'];
                Called Close rp]
          with ([Called c0 (Rejected e);
                 ConsoleError ["An error occurred:"; message e']]
                ++ [Called Close rp]) in E.
        rewrite app_assoc in E.
        apply app_inj_tail in E. destruct E as [_ [= ->]]. reflexivity.
      * apply app_inj_tail in E. destruct E as [_ [=]].
      * change [Called (Launch false) (Rejected e);
                ConsoleError ["An error occurred:"; message e]]
          with ([Called (Launch false) (Rejected e)]
                ++ [ConsoleError ["An error occurred:"; message e]]) in E.
        rewrite app_assoc in E.
        apply app_inj_tail in E. destruct E as [_ [=]].
Qed.

(** X13: every value [run] passes to the browser comes from the resolved
    configuration: the three URLs are the base URL, alone or followed by
    "/login" or "/run"; the username and the password go to their own
    fields; the process name created, the one selected for the instance
    and the one searched for are the same configured name, and the status
    is read from the row of that name; the connector gets the configured
    REST URL. *)
Theorem run_passes_configured_values env w :
  Forall (configured (load_config env)) (calls (trace (snd (main env w)))).
Proof.
  apply Forall_forall. intros c Hin. unfold main in Hin.
  destruct (ran_calls_in _ _ _ _ _ (run_ran (load_config env) w) Hin)
    as [->|[->|[->|[->|(sc & Hsc & Hc)]]]]; try exact I; try reflexivity.
  cbn in Hsc.
  repeat (destruct Hsc as [<-|Hsc]; [|]); try contradiction; cbn in Hc;
    repeat (destruct Hc as [<-|Hc]; [cbn; auto 10|]); contradiction.
Qed.

Lemma piped_normal w cfg h scs evs r :
  piped w cfg h scs evs r ->
  r = Normal tt ->
  calls evs = flat_map (script cfg) scs /\
  exists vs,
    length vs = length scs /\
    lines_logged evs
    = map (fun p => [success_line (fst p) (snd p)]) (combine scs vs).
Proof.
  induction 1 as [h|h sc rest evs evs' r Hs Hp IH|h sc rest evs e Hs
                 |h sc rest evs Hs]; intros Hr; try discriminate.
  - split; [reflexivity|]. now exists [].
  - destruct (IH Hr) as (Hc & vs & Hlen & Hl).
    destruct (staged_calls Hs) as (_ & _ & Hcs).
    pose proof (staged_lines_logged Hs) as (evs0 & v & _ & _ & Hl0).
    rewrite calls_app, lines_logged_app, Hc, Hl, Hl0, (Hcs eq_refl).
    split; [reflexivity|]. exists (v :: vs). cbn. now rewrite Hlen.
Qed.

(** X14: a run in which no call rejects or stays unsettled completes
    normally, having made the launch, the context and page creation, all
    calls of the five stages in order and the close, and having logged
    the five lines of the stages and no diagnostic. *)
Theorem run_without_failure env w :
  smooth (trace (snd (main env w))) ->
  let cfg := load_config env in
  fst (main env w) = Normal tt /\
  calls (trace (snd (main env w)))
  = [Launch false; NewContext; NewPage]
    ++ login_calls cfg (USERNAME cfg) (PASSWORD cfg)
    ++ navigateToModeler_calls cfg
    ++ createProcess_calls (PROCESS_NAME cfg) (REST_URL cfg)
    ++ runProcessInstance_calls cfg (PROCESS_NAME cfg)
    ++ verifyCompletion_calls (PROCESS_NAME cfg)
    ++ [Close] /\
  (exists status,
     lines_logged (trace (snd (main env w)))
     = [ ["Logged in successfully"];
         ["Navigated to Web Modeler"];
         ["Process " +++ dquote +++ PROCESS_NAME cfg +++ dquote
          +++ " created successfully"];
         ["Process instance of " +++ dquote +++ PROCESS_NAME cfg +++ dquote
          +++ " started successfully"];
         [verifyCompletion_line (PROCESS_NAME cfg) status] ]) /\
  errors_logged (trace (snd (main env w))) = [].
Proof.
  cbv zeta. unfold main. intros Hsmooth.
  destruct (run_ran (load_config env) w)
    as [e Hw|Hw|v evs0 rp Hb Hw|v evs0 e rp Hb Hw|v evs0 Hb];
    try discriminate Hsmooth.
  - change (smooth ([Called (Launch false) (Fulfilled v)] ++ evs0
                    ++ [Called Close rp])) in Hsmooth.
    apply smooth_app in Hsmooth. destruct Hsmooth as [_ Hsmooth].
    apply smooth_app in Hsmooth. destruct Hsmooth as [_ Hrp].
    destruct rp as [u| |]; try discriminate Hrp.
    pose proof (booted_errors_logged Hb) as Hel.
    inversion Hb as [evs1 v1 evs2 r Hp Hq E1 E2| |]; subst.
    destruct (performs_calls _ _ _ _ _ _ Hp) as (_ & _ & Hc1).
    pose proof (performs_lines_logged _ _ _ _ _ _ Hp) as Hl1.
    destruct (piped_normal _ _ _ _ _ _ Hq eq_refl) as (Hc2 & vs & Hlen & Hl2).
    repeat apply conj.
    + reflexivity.
    + cbn [calls]. rewrite !calls_app, (Hc1 _ eq_refl), Hc2. reflexivity.
    + destruct vs as [|v2 [|v3 [|v4 [|v5 [|v6 [|? ?]]]]]]; try discriminate Hlen.
      exists v6. cbn [lines_logged].
      rewrite !lines_logged_app, Hl1, Hl2. reflexivity.
    + cbn [errors_logged]. now rewrite errors_logged_app, Hel.
  - exfalso.
    pose proof (booted_halts Hb) as (pre & c & e0 & -> & _).
    change (smooth ([Called (Launch false) (Fulfilled v)]
                    ++ (pre ++ [Called c (Rejected e0)])
                    ++ [ConsoleError ["An error occurred:"; message e];
                        Called Close rp])) in Hsmooth.
    rewrite !smooth_app in Hsmooth.
    destruct Hsmooth as (_ & (_ & H) & _). discriminate H.
  - exfalso.
    pose proof (booted_halts Hb) as (pre & c & -> & _).
    change (smooth ([Called (Launch false) (Fulfilled v)]
                    ++ (pre ++ [Called c Pending]))) in Hsmooth.
    rewrite !smooth_app in Hsmooth.
    destruct Hsmooth as (_ & _ & H). discriminate H.
Qed.

Lemma run_without_failure_witness :
  fst (main (fun _ => None) (cooperative (Some "Running"))) = Normal tt /\
  length (calls (trace (snd (main (fun _ => None)
                               (cooperative (Some "Running")))))) = 35.
Proof.
  destruct (run_without_failure (fun _ => None) (cooperative (Some "Running"))
              eq_refl)
    as (Hr & Hc & _).
  split; [exact Hr|]. rewrite Hc. reflexivity.
Defined.
